(** * Detection post-processing of [PredictorNetwork.predict_image]

    A shallow embedding of the post-processing stage of
    [luminoth/utils/predicting.py]: coordinate rescaling, the one-pixel-apart
    rule ([bbs_pixel_apart]), the single-occurrence and exact-duplicate rules,
    compaction of the slot array and the final sort by probability.

    Modelling choices.
    - A box is the four integers [xmin, ymin, xmax, ymax] of one row of the
      rescaled [objects] list; a raw (network space) box has four rationals.
    - Python floats (raw coordinates, scale factors, probabilities) are
      modelled as exact rationals [Q]; float [==] is [Qeq_bool], [>] is the
      negation of [Qle_bool].  [round] is Python 3's round-half-to-even.
      The division of the float32 array is given twice: with the exact
      quotient ([rescale]), and with the quotient rounded to the nearest
      float32 as numpy stores it ([rescale_float32]).
    - Exceptions are an error monad [result]; the [predictions] list mutated
      by index is the state of a state-and-error monad [M], so that the
      content of the list at the moment an exception is raised is visible.
    - A label is either a raw class index or a class name. *)

From Stdlib Require Import String.
From Stdlib Require Import ZArith QArith Qabs Qpower List Bool Lia Lqa Arith.
From Stdlib Require Import Permutation Sorted.
Import ListNotations.

Local Open Scope nat_scope.

(** ** Exceptions *)

Inductive exn : Type :=
| AssertionError
| IndexError
| ValueError
| OverflowError.

Inductive result (A : Type) : Type :=
| Ok (a : A)
| Raise (e : exn).

Arguments Ok {A} a.
Arguments Raise {A} e.

Definition rbind {A B : Type} (c : result A) (k : A -> result B) : result B :=
  match c with
  | Ok a => k a
  | Raise e => Raise e
  end.

Declare Scope result_scope.
Delimit Scope result_scope with result.
Notation "x <- c1 ;; c2" := (rbind c1 (fun x => c2))
  (at level 61, c1 at next level, right associativity) : result_scope.

(** [l[i]] for a non-negative index. *)
Definition index {A : Type} (l : list A) (i : nat) : result A :=
  match nth_error l i with
  | Some a => Ok a
  | None => Raise IndexError
  end.

(** A list comprehension whose element expression may raise. *)
Fixpoint comprehension {A B : Type} (f : A -> result B) (l : list A)
  : result (list B) :=
  match l with
  | [] => Ok []
  | a :: l' =>
      (b <- f a ;; bs <- comprehension f l' ;; Ok (b :: bs))%result
  end.

(** [enumerate(l)] *)
Definition enumerate {A : Type} (l : list A) : list (nat * A) :=
  combine (seq 0 (length l)) l.

(** ** Boxes *)

Record box : Type := mkBox { xmin : Z; ymin : Z; xmax : Z; ymax : Z }.

Definition coords (b : box) : list Z := [xmin b; ymin b; xmax b; ymax b].

Definition box_eqb (a b : box) : bool :=
  (xmin a =? xmin b)%Z && (ymin a =? ymin b)%Z &&
  (xmax a =? xmax b)%Z && (ymax a =? ymax b)%Z.

(** [objects.count(obj)] *)
Definition count (objects : list box) (obj : box) : nat :=
  length (filter (box_eqb obj) objects).

(** ** [np.unique(np.fabs(np.subtract(each_obj, obj))).tolist()] *)

(** [np.unique] returns the sorted distinct values. *)
Fixpoint insert_unique (x : Z) (l : list Z) : list Z :=
  match l with
  | [] => [x]
  | y :: l' =>
      if (x <? y)%Z then x :: y :: l'
      else if (x =? y)%Z then y :: l'
      else y :: insert_unique x l'
  end.

Definition np_unique (l : list Z) : list Z :=
  fold_right insert_unique [] l.

Definition fabs_subtract (each_obj obj : box) : list Z :=
  map (fun '(a, b) => Z.abs (a - b)) (combine (coords each_obj) (coords obj)).

Fixpoint list_Z_eqb (l1 l2 : list Z) : bool :=
  match l1, l2 with
  | [], [] => true
  | x :: l1', y :: l2' => (x =? y)%Z && list_Z_eqb l1' l2'
  | _, _ => false
  end.

Definition pixel_apart (each_obj obj : box) : bool :=
  list_Z_eqb [0; 1]%Z (np_unique (fabs_subtract each_obj obj)).

Definition bbs_pixel_apart (obj : box) (objects : list box) : list nat :=
  map fst (filter (fun p => pixel_apart (snd p) obj) (enumerate objects)).

(** ** Rounding *)

(** Python 3 [round(x)]: nearest integer, ties to the even one. *)
Definition py_round (q : Q) : Z :=
  let r := Qred q in
  let n := Qnum r in
  let d := Zpos (Qden r) in
  let fl := (n / d)%Z in
  let rem := (n mod d)%Z in
  if (2 * rem <? d)%Z then fl
  else if (d <? 2 * rem)%Z then (fl + 1)%Z
  else if Z.even fl then fl else (fl + 1)%Z.

(** [round(x, 4)] *)
Definition round4 (q : Q) : Q := Qmake (py_round (q * 10000)) 10000.

(** ** Coordinate rescaling (lines 129-145) *)

Record raw_box : Type := mkRaw { rxmin : Q; rymin : Q; rxmax : Q; rymax : Q }.

Inductive scale : Type :=
| Scalar (s : Q)
| Pair (scale_factor_height scale_factor_width : Q).

(** The divisor of each of the four columns: [[sw, sh, sw, sh]] for a pair
    [(sh, sw)] (line 134), the scalar itself otherwise (line 139). *)
Definition divisors (sf : scale) : Q * Q * Q * Q :=
  match sf with
  | Pair sh sw => (sw, sh, sw, sh)
  | Scalar s => (s, s, s, s)
  end.

(** [int(round(coord))] of one divided coordinate.  The in-place division of
    the array never raises: a zero divisor leaves a NaN (0/0) or an infinity
    in the array, and it is [round] that raises on them.  The quotient is
    taken exactly here, which decides whether the call raises and how the
    results are ordered; the float32 rounding of the quotient, which can move
    the rounded integer by one, is in [int_round_div_float32] below. *)
Definition int_round_div (coord divisor : Q) : result Z :=
  if Qeq_bool divisor 0 then
    if Qeq_bool coord 0 then Raise ValueError else Raise OverflowError
  else Ok (py_round (coord / divisor)).

(** One row of [[[int(round(coord)) for coord in obj] for obj in ...]]. *)
Definition rescale_box (sf : scale) (o : raw_box) : result box :=
  let '(d0, d1, d2, d3) := divisors sf in
  (x0 <- int_round_div (rxmin o) d0 ;;
   y0 <- int_round_div (rymin o) d1 ;;
   x1 <- int_round_div (rxmax o) d2 ;;
   y1 <- int_round_div (rymax o) d3 ;;
   Ok (mkBox x0 y0 x1 y1))%result.

Definition rescale (sf : scale) (objects : list raw_box) : result (list box) :=
  comprehension (rescale_box sf) objects.

Definition scale_nonzero (sf : scale) : Prop :=
  match sf with
  | Pair sh sw => ~ sh == 0 /\ ~ sw == 0
  | Scalar s => ~ s == 0
  end.

(** *** The division in single precision

    [objects] is a float32 array and the scale factors are fetched as float32
    values, so the in-place division of lines 134-139 rounds every quotient
    to the nearest float32 (ties to the even significand) before [round]
    reads it.  The definitions above take the quotient exactly; the ones
    below add that rounding, and the overflow of the quotient to an
    infinity.  Coordinates and scale factors are rationals holding the
    float32 values. *)

(** [floor(log2 |q|)] for [q <> 0]: the binary exponent of [q]. *)
Definition float32_exponent (q : Q) : Z :=
  let e := (Z.log2 (Z.abs (Qnum q)) - Z.log2 (Zpos (Qden q)))%Z in
  if Qle_bool (2 ^ e) (Qabs q) then e else (e - 1)%Z.

(** The distance between the float32 values around [q]: 24 bits of
    significand, the exponent never below that of the subnormals. *)
Definition float32_ulp (q : Q) : Q :=
  (2 ^ (Z.max (float32_exponent q) (-126) - 23))%Q.

(** The nearest float32, ties to even; unbounded above. *)
Definition round_float32 (q : Q) : Q :=
  if Qeq_bool q 0 then 0%Q
  else (inject_Z (py_round (q / float32_ulp q)) * float32_ulp q)%Q.

(** A rounded quotient of magnitude [2^128] or more is an infinity. *)
Definition float32_overflow (q : Q) : bool := Qle_bool (2 ^ 128) (Qabs q).

(** [int(round(coord))] of one coordinate divided in float32. *)
Definition int_round_div_float32 (coord divisor : Q) : result Z :=
  if Qeq_bool divisor 0 then
    if Qeq_bool coord 0 then Raise ValueError else Raise OverflowError
  else
    let quotient := round_float32 (coord / divisor) in
    if float32_overflow quotient then Raise OverflowError
    else Ok (py_round quotient).

Definition rescale_box_float32 (sf : scale) (o : raw_box) : result box :=
  let '(d0, d1, d2, d3) := divisors sf in
  (x0 <- int_round_div_float32 (rxmin o) d0 ;;
   y0 <- int_round_div_float32 (rymin o) d1 ;;
   x1 <- int_round_div_float32 (rxmax o) d2 ;;
   y1 <- int_round_div_float32 (rymax o) d3 ;;
   Ok (mkBox x0 y0 x1 y1))%result.

Definition rescale_float32 (sf : scale) (objects : list raw_box)
  : result (list box) :=
  comprehension (rescale_box_float32 sf) objects.

(** ** Detections and the slot array *)

Inductive label : Type :=
| ClassId (n : Z)
| ClassName (s : String.string).

Record detection : Type :=
  mkDetection { bbox : box; dlabel : label; prob : Q }.

Definition slots : Type := list (option detection).

(** State-and-error monad over the [predictions] list. *)
Definition M (A : Type) : Type := slots -> slots * result A.

Definition ret {A : Type} (a : A) : M A := fun s => (s, Ok a).

Definition bind {A B : Type} (c : M A) (k : A -> M B) : M B :=
  fun s =>
    match c s with
    | (s', Ok a) => k a s'
    | (s', Raise e) => (s', Raise e)
    end.

Definition lift {A : Type} (r : result A) : M A := fun s => (s, r).

Declare Scope M_scope.
Delimit Scope M_scope with M.
Notation "x <- c1 ;; c2" := (bind c1 (fun x => c2))
  (at level 61, c1 at next level, right associativity) : M_scope.
Notation "c1 ;; c2" := (bind c1 (fun _ => c2))
  (at level 61, right associativity) : M_scope.

Fixpoint set_nth {A : Type} (l : list A) (i : nat) (a : A) : list A :=
  match l, i with
  | [], _ => []
  | _ :: l', O => a :: l'
  | x :: l', S i' => x :: set_nth l' i' a
  end.

(** [predictions[i] = d] *)
Definition write (i : nat) (d : detection) : M unit :=
  fun s =>
    if i <? length s then (set_nth s i (Some d), Ok tt)
    else (s, Raise IndexError).

(** [assert b] *)
Definition py_assert (b : bool) : result unit :=
  if b then Ok tt else Raise AssertionError.

(** ** [max] and the first index carrying the maximum *)

Definition Qgt_bool (x y : Q) : bool := negb (Qle_bool x y).

(** [max(l)]: the first of the largest elements; [ValueError] on []. *)
Definition py_max (l : list Q) : result Q :=
  match l with
  | [] => Raise ValueError
  | x :: l' => Ok (fold_left (fun m y => if Qgt_bool y m then y else m) l' x)
  end.

(** [[index for index, prob in zip(indices, probs) if prob == max_prob][0]] *)
Definition first_with (indices : list nat) (probs : list Q) (max_prob : Q)
  : result nat :=
  index (map fst (filter (fun p => Qeq_bool (snd p) max_prob)
                         (combine indices probs))) 0.

(** ** The three rules of one iteration (lines 153-196) *)

Section Pass.

Variable objects : list box.
Variable labels : list label.
Variable probs : list Q.

(** Lines 153-174. *)
Definition near_duplicate_rule (cnt : nat) (obj : box) (p : Q) : M unit :=
  let repeated_indices := bbs_pixel_apart obj objects in
  if 0 <? length repeated_indices then
    (repeated_probs <- lift (comprehension (index probs) repeated_indices) ;;
     let repeated_probs := repeated_probs ++ [p] in
     let repeated_indices := repeated_indices ++ [cnt] in
     max_prob <- lift (py_max repeated_probs) ;;
     lift (py_assert (length repeated_probs =? length repeated_indices)) ;;
     prob_index <- lift (first_with repeated_indices repeated_probs max_prob) ;;
     b <- lift (index objects prob_index) ;;
     l <- lift (index labels prob_index) ;;
     write prob_index (mkDetection b l (round4 max_prob)))%M
  else ret tt.

(** Lines 175-180. *)
Definition unique_rule (cnt : nat) (obj : box) (l : label) (p : Q) : M unit :=
  write cnt (mkDetection obj l (round4 p)).

(** Lines 181-196. *)
Definition exact_duplicate_rule (obj : box) : M unit :=
  (prob_repeated_objs <-
     lift (comprehension
             (fun i => (pi <- index probs i ;; Ok (i, pi))%result)
             (map fst (filter (fun iv => box_eqb (snd iv) obj)
                              (enumerate objects)))) ;;
   let repeated_indices := map fst prob_repeated_objs in
   let repeated_probs := map snd prob_repeated_objs in
   max_prob <- lift (py_max repeated_probs) ;;
   prob_index <- lift (first_with repeated_indices repeated_probs max_prob) ;;
   l <- lift (index labels prob_index) ;;
   write prob_index (mkDetection obj l (round4 max_prob)))%M.

(** One iteration of the [for] loop. *)
Definition iteration (cnt : nat) (obj : box) (l : label) (p : Q) : M unit :=
  (near_duplicate_rule cnt obj p ;;
   if count objects obj =? 1 then unique_rule cnt obj l p
   else if 1 <? count objects obj then exact_duplicate_rule obj
   else ret tt)%M.

(** The loop over [zip(objects, labels, probs)], [count] threaded. *)
Fixpoint loop (cnt : nat) (items : list (box * (label * Q))) : M unit :=
  match items with
  | [] => ret tt
  | (obj, (l, p)) :: items' =>
      (iteration cnt obj l p ;; loop (S cnt) items')%M
  end.

End Pass.

(** ** Compaction and sort (lines 199-202) *)

(** [list(filter(None, predictions))]: every record is a non-empty dict, so
    exactly the [None] slots are dropped. *)
Fixpoint compact (s : slots) : list detection :=
  match s with
  | [] => []
  | Some d :: s' => d :: compact s'
  | None :: s' => compact s'
  end.

(** [sorted(predictions, key=lambda x: x['prob'], reverse=True)]: a stable
    sort, largest key first. *)
Fixpoint insert_desc (d : detection) (l : list detection) : list detection :=
  match l with
  | [] => [d]
  | e :: l' =>
      if Qle_bool (prob e) (prob d) then d :: e :: l'
      else e :: insert_desc d l'
  end.

Definition sorted_desc (l : list detection) : list detection :=
  fold_right insert_desc [] l.

(** ** The post-processing of [predict_image] (lines 149-204) *)

Definition postprocess (objects : list box) (labels : list label)
           (probs : list Q) : slots * result (list detection) :=
  let predictions := repeat None (length objects) in
  match py_assert ((length objects =? length labels) &&
                   (length labels =? length probs)) with
  | Raise e => (predictions, Raise e)
  | Ok _ =>
      match loop objects labels probs 0
                 (combine objects (combine labels probs)) predictions with
      | (predictions, Raise e) => (predictions, Raise e)
      | (predictions, Ok _) =>
          (predictions, Ok (sorted_desc (compact predictions)))
      end
  end.

(** Lines 129-204: rescaling followed by the post-processing. *)
Definition predict_image (objects : list raw_box) (labels : list label)
           (probs : list Q) (scale_factor : scale) : result (list detection) :=
  (objs <- rescale scale_factor objects ;;
   snd (postprocess objs labels probs))%result.

(** ** The front of [predict_image] (lines 121-127) and of [__init__] *)

(** [l[z]] for a Python [int]: a negative index counts from the end. *)
Definition getitem {A : Type} (l : list A) (z : Z) : result A :=
  if (0 <=? z)%Z then index l (Z.to_nat z)
  else if (- Z.of_nat (length l) <=? z)%Z
       then index l (Z.to_nat (Z.of_nat (length l) + z))
       else Raise IndexError.

(** An instance attribute that [__init__] may leave unset. *)
Inductive attribute (A : Type) : Type :=
| Unset
| Assigned (a : A).

Arguments Unset {A}.
Arguments Assigned {A} a.

(** Lines 22-28: [self.class_labels] is assigned only when
    [config.dataset.dir] is truthy; it is then the list loaded from
    [classes.json], or [None] when that file does not exist. *)
Definition init_class_labels (dataset_dir : option String.string)
           (classes_json : option (list String.string))
  : attribute (option (list String.string)) :=
  match dataset_dir with
  | None => Unset
  | Some dir => if String.eqb dir String.EmptyString then Unset
                else Assigned classes_json
  end.

(** Lines 126-127: [[self.class_labels[label] for label in labels]] when the
    table is not [None], the raw labels otherwise. *)
Definition resolve_labels (class_labels : option (list String.string))
           (labels : list Z) : result (list label) :=
  match class_labels with
  | Some names =>
      comprehension
        (fun z => (name <- getitem names z ;; Ok (ClassName name))%result)
        labels
  | None => Ok (map ClassId labels)
  end.

(** What a call of [predict_image] ends with; reading an unset attribute
    raises [AttributeError]. *)
Inductive outcome (A : Type) : Type :=
| Returned (a : A)
| Failed (e : exn)
| FailedAttributeError.

Arguments Returned {A} a.
Arguments Failed {A} e.
Arguments FailedAttributeError {A}.

(** Lines 121-204, from the fetched values on. *)
Definition predict_image_fetched
           (self_class_labels : attribute (option (list String.string)))
           (objects : list raw_box) (labels : list Z) (probs : list Q)
           (scale_factor : scale) : outcome (list detection) :=
  match self_class_labels with
  | Unset => FailedAttributeError
  | Assigned class_labels =>
      match resolve_labels class_labels labels with
      | Raise e => Failed e
      | Ok labels =>
          match predict_image objects labels probs scale_factor with
          | Raise e => Failed e
          | Ok predictions => Returned predictions
          end
      end
  end.


(** * Vocabulary of the properties *)

Definition default_box : box := mkBox 0 0 0 0.

(** The record of index [i]: its own box, label and rounded probability. *)
Definition record_of (objects : list box) (labels : list label)
           (probs : list Q) (i : nat) : detection :=
  mkDetection (nth i objects default_box) (nth i labels (ClassId 0))
              (round4 (nth i probs 0%Q)).

(** The indices holding exactly the box [obj] (lines 182-185). *)
Definition exact_indices (obj : box) (objects : list box) : list nat :=
  map fst (filter (fun iv => box_eqb (snd iv) obj) (enumerate objects)).

(** [w] is the first element of [idxs], in the order of [idxs], at which [f]
    is largest. *)
Definition first_max (f : nat -> Q) (idxs : list nat) (w : nat) : Prop :=
  exists pre post,
    idxs = pre ++ w :: post /\
    Forall (fun g => (f g < f w)%Q) pre /\
    Forall (fun g => (f g <= f w)%Q) post.

(** The winner as the near-duplicate sentence words it: a member of the
    group with the highest probability, the one of smallest index in the
    original list among those that tie. *)
Definition first_occurrence_max (probs : list Q) (group : list nat) (w : nat)
  : Prop :=
  In w group /\
  (forall g, In g group -> (nth g probs 0 <= nth w probs 0)%Q) /\
  (forall g, In g group -> g < w -> (nth g probs 0 < nth w probs 0)%Q).

(** The effect of one rule on the slot array: nothing, or the record of
    some index [w] written into slot [w]. *)
Definition write_slot (objects : list box) (labels : list label)
           (probs : list Q) (ow : option nat) (s : slots) : slots :=
  match ow with
  | None => s
  | Some w => set_nth s w (Some (record_of objects labels probs w))
  end.

(** Which slot the near-duplicate rule writes at iteration [cnt]. *)
Definition near_winner (objects : list box) (probs : list Q) (cnt : nat)
           (ow : option nat) : Prop :=
  let near := bbs_pixel_apart (nth cnt objects default_box) objects in
  match ow with
  | None => near = []
  | Some w =>
      near <> [] /\ first_max (fun i => nth i probs 0%Q) (near ++ [cnt]) w
  end.

(** Which slot the exact-count rules write at iteration [cnt]. *)
Definition exact_winner (objects : list box) (probs : list Q) (cnt : nat)
           (w : nat) : Prop :=
  let obj := nth cnt objects default_box in
  if count objects obj =? 1 then w = cnt
  else first_max (fun i => nth i probs 0%Q) (exact_indices obj objects) w.

(** Every filled slot holds the record of its own index. *)
Definition slots_ok (objects : list box) (labels : list label)
           (probs : list Q) (s : slots) : Prop :=
  length s = length objects /\
  forall j d, nth_error s j = Some (Some d) ->
              d = record_of objects labels probs j.

Definition written (objects : list box) (labels : list label)
           (probs : list Q) (s : slots) (j : nat) : Prop :=
  nth_error s j = Some (Some (record_of objects labels probs j)).

Definition prob_ge (a b : detection) : Prop := (prob b <= prob a)%Q.

(** The three sequences are not of one length. *)
Definition misaligned (objects : list box) (labels : list label)
           (probs : list Q) : Prop :=
  length objects <> length labels \/ length objects <> length probs.

(** The boxes of the worked examples. *)
Definition box_10_10 : box := mkBox 0 0 10 10.
Definition box_10_11 : box := mkBox 0 0 10 11.

(** Slot [j] holds a record. *)
Definition filled (s : slots) (j : nat) : Prop :=
  exists d, nth_error s j = Some (Some d).

(** Some iteration selects index [j], by the near-duplicate rule or by the
    exact-count rules. *)
Definition chosen (objects : list box) (probs : list Q) (j : nat) : Prop :=
  exists i, i < length objects /\
            (near_winner objects probs i (Some j) \/
             exact_winner objects probs i j).

(** What a record says apart from its label. *)
Definition box_and_prob (d : detection) : box * Q := (bbox d, prob d).

Definition filledb (s : slots) (j : nat) : bool :=
  match nth_error s j with
  | Some (Some _) => true
  | _ => false
  end.



(** Every raw label is a valid index of the class table, if there is one. *)
Definition labels_valid (class_labels : option (list String.string))
           (labels : list Z) : Prop :=
  match class_labels with
  | Some names =>
      Forall (fun z => (- Z.of_nat (length names) <= z
                        < Z.of_nat (length names))%Z) labels
  | None => True
  end.

(** [z] is what the code makes of the exact quotient [q]: [round] of the
    float32 nearest to [q].  It is a nearest integer of that float32, and
    differs from [q] by at most a half plus the rounding error of the
    division. *)
Definition rounded_quotient (z : Z) (q : Q) : Prop :=
  z = py_round (round_float32 q) /\
  (Qabs (inject_Z z - round_float32 q) <= 1 # 2)%Q /\
  (Qabs (inject_Z z - q) <= (1 # 2) + Qabs q * 2 ^ (-24) + 2 ^ (-150))%Q.

(** The four quotients of a row stay clear of the float32 overflow. *)
Definition quotients_in_range (sf : scale) (o : raw_box) : Prop :=
  let '(d0, d1, d2, d3) := divisors sf in
  (Qabs (rxmin o / d0) < 2 ^ 127)%Q /\ (Qabs (rymin o / d1) < 2 ^ 127)%Q /\
  (Qabs (rxmax o / d2) < 2 ^ 127)%Q /\ (Qabs (rymax o / d3) < 2 ^ 127)%Q.


(** * Properties *)

(** ** Lists updated by index *)

Lemma length_set_nth {A : Type} (l : list A) (i : nat) (a : A) :
  length (set_nth l i a) = length l.
Proof.
  revert i; induction l as [|x l IH]; intros [|i]; simpl; auto.
Qed.

Lemma nth_error_set_nth_eq {A : Type} (l : list A) (i : nat) (a : A) :
  i < length l -> nth_error (set_nth l i a) i = Some a.
Proof.
  revert i; induction l as [|x l IH]; intros [|i] H; simpl in *;
    try lia; auto.
  apply IH; lia.
Qed.

Lemma nth_error_set_nth_ne {A : Type} (l : list A) (i j : nat) (a : A) :
  i <> j -> nth_error (set_nth l i a) j = nth_error l j.
Proof.
  revert i j; induction l as [|x l IH]; intros [|i] [|j] H; simpl;
    try reflexivity; try congruence.
  apply IH; congruence.
Qed.

Lemma index_nth {A : Type} (l : list A) (i : nat) (d : A) :
  i < length l -> index l i = Ok (nth i l d).
Proof.
  intros H. unfold index.
  rewrite (nth_error_nth' l d H). reflexivity.
Qed.

Lemma comprehension_ok {A B : Type} (f : A -> result B) (g : A -> B)
      (l : list A) :
  Forall (fun a => f a = Ok (g a)) l -> comprehension f l = Ok (map g l).
Proof.
  induction 1 as [|a l Ha _ IH]; simpl; [reflexivity|].
  rewrite Ha, IH. reflexivity.
Qed.

Lemma enumerate_filter_In {A : Type} (P : A -> bool) (l : list A) (j : nat) :
  In j (map fst (filter (fun p => P (snd p)) (enumerate l))) <->
  exists a, nth_error l j = Some a /\ P a = true.
Proof.
  assert (G : forall k, In j (map fst (filter (fun p => P (snd p))
                                  (combine (seq k (length l)) l))) <->
              exists a, k <= j /\ nth_error l (j - k) = Some a /\ P a = true).
  { induction l as [|x l IH]; intros k'; simpl.
    - split; [tauto|]. intros (a & _ & H & _).
      destruct (j - k'); discriminate.
    - destruct (P x) eqn:Px; simpl; rewrite IH; split.
      + intros [->|(a & Hle & Hn & Ha)].
        * exists x. rewrite Nat.sub_diag. auto.
        * exists a. split; [lia|]. split; auto.
          replace (j - k') with (S (j - S k')) by lia. exact Hn.
      + intros (a & Hle & Hn & Ha).
        destruct (Nat.eq_dec k' j) as [->|Hne]; [left; reflexivity|right].
        exists a. split; [lia|]. split; auto.
        replace (j - k') with (S (j - S k')) in Hn by lia. exact Hn.
      + intros (a & Hle & Hn & Ha).
        exists a. split; [lia|]. split; auto.
        replace (j - k') with (S (j - S k')) by lia. exact Hn.
      + intros (a & Hle & Hn & Ha).
        destruct (Nat.eq_dec k' j) as [->|Hne].
        * rewrite Nat.sub_diag in Hn. simpl in Hn. congruence.
        * exists a. split; [lia|]. split; auto.
          replace (j - k') with (S (j - S k')) in Hn by lia. exact Hn. }
  unfold enumerate. rewrite G. rewrite Nat.sub_0_r.
  split; [intros (a & _ & H); eauto | intros (a & H); exists a; split; [lia|auto]].
Qed.

(** ** The one-pixel-apart test *)

Lemma list_Z_eqb_eq (l1 l2 : list Z) : list_Z_eqb l1 l2 = true <-> l1 = l2.
Proof.
  revert l2; induction l1 as [|x l1 IH]; intros [|y l2]; simpl;
    try (split; [discriminate|congruence]); try tauto.
  rewrite andb_true_iff, Z.eqb_eq, IH.
  split; [intros [-> ->]; reflexivity | intros H; inversion H; auto].
Qed.

Lemma insert_unique_In (x y : Z) (l : list Z) :
  In x (insert_unique y l) <-> x = y \/ In x l.
Proof.
  induction l as [|z l IH]; simpl; [intuition|].
  destruct (Z.ltb_spec y z); [simpl; intuition|].
  destruct (Z.eqb_spec y z); simpl; [subst; intuition|].
  rewrite IH. intuition.
Qed.

Lemma np_unique_In (x : Z) (l : list Z) : In x (np_unique l) <-> In x l.
Proof.
  induction l as [|y l IH]; simpl; [tauto|].
  rewrite insert_unique_In, IH. intuition.
Qed.

Lemma insert_unique_sorted (y : Z) (l : list Z) :
  StronglySorted Z.lt l -> StronglySorted Z.lt (insert_unique y l).
Proof.
  induction 1 as [|z l Hs IH Hz]; simpl.
  - repeat constructor.
  - destruct (Z.ltb_spec y z).
    + constructor; [constructor; assumption|].
      constructor; [assumption|].
      eapply Forall_impl; [|exact Hz]. simpl; intros; lia.
    + destruct (Z.eqb_spec y z); [constructor; assumption|].
      constructor; [assumption|].
      rewrite Forall_forall in *. intros a Ha.
      apply insert_unique_In in Ha. destruct Ha as [->|Ha]; [lia|auto].
Qed.

Lemma np_unique_sorted (l : list Z) : StronglySorted Z.lt (np_unique l).
Proof.
  induction l; simpl; [constructor | apply insert_unique_sorted; assumption].
Qed.

(** [np.unique(l).tolist() == [0, 1]] exactly when the values occurring in
    [l] are 0 and 1, both of them. *)
Lemma np_unique_01 (l : list Z) :
  np_unique l = [0; 1]%Z <-> (forall x, In x l <-> x = 0%Z \/ x = 1%Z).
Proof.
  split.
  - intros E x. rewrite <- np_unique_In, E. simpl. intuition.
  - intros H.
    assert (Hin : forall x, In x (np_unique l) <-> x = 0%Z \/ x = 1%Z)
      by (intros x; rewrite np_unique_In; apply H).
    pose proof (np_unique_sorted l) as Hs.
    destruct (np_unique l) as [|a [|b u]].
    + exfalso. apply (Hin 0%Z). auto.
    + exfalso. assert (0 = a)%Z by (destruct (proj2 (Hin 0%Z)); simpl in *; intuition).
      assert (1 = a)%Z by (destruct (proj2 (Hin 1%Z)); simpl in *; intuition).
      lia.
    + inversion Hs as [|? ? Hs' Ha]; subst.
      inversion Hs' as [|? ? Hs'' Hb]; subst.
      inversion Ha as [|? ? Hab _]; subst.
      assert (Ea : a = 0%Z \/ a = 1%Z) by (apply Hin; simpl; auto).
      assert (Eb : b = 0%Z \/ b = 1%Z) by (apply Hin; simpl; auto).
      assert (a = 0 /\ b = 1)%Z as [-> ->] by lia.
      destruct u as [|c u]; [reflexivity|].
      exfalso. inversion Hb as [|? ? Hbc _]; subst.
      assert (c = 0%Z \/ c = 1%Z) by (apply Hin; simpl; auto). lia.
Qed.

Lemma pixel_apart_01 (c b : box) :
  pixel_apart c b = true <->
  (forall x, In x (fabs_subtract c b) <-> x = 0%Z \/ x = 1%Z).
Proof.
  unfold pixel_apart. rewrite list_Z_eqb_eq, <- np_unique_01.
  split; congruence.
Qed.

Lemma fabs_subtract_sym (a b : box) : fabs_subtract a b = fabs_subtract b a.
Proof.
  unfold fabs_subtract, coords; simpl.
  repeat (f_equal; try lia).
Qed.

Lemma pixel_apart_sym (a b : box) : pixel_apart a b = pixel_apart b a.
Proof.
  unfold pixel_apart. rewrite fabs_subtract_sym. reflexivity.
Qed.

Lemma pixel_apart_irrefl (a : box) : pixel_apart a a = false.
Proof.
  unfold pixel_apart, fabs_subtract, coords; simpl.
  rewrite !Z.sub_diag. reflexivity.
Qed.

Lemma bbs_pixel_apart_In (obj : box) (objects : list box) (j : nat) :
  In j (bbs_pixel_apart obj objects) <->
  exists c, nth_error objects j = Some c /\ pixel_apart c obj = true.
Proof.
  unfold bbs_pixel_apart.
  apply (enumerate_filter_In (fun c => pixel_apart c obj)).
Qed.

Lemma bbs_pixel_apart_lt (obj : box) (objects : list box) (j : nat) :
  In j (bbs_pixel_apart obj objects) -> j < length objects.
Proof.
  rewrite bbs_pixel_apart_In. intros (c & H & _).
  apply nth_error_Some. congruence.
Qed.

Lemma box_eqb_eq (a b : box) : box_eqb a b = true <-> a = b.
Proof.
  unfold box_eqb. rewrite !andb_true_iff, !Z.eqb_eq.
  destruct a, b; simpl. split.
  - intros [[[-> ->] ->] ->]. reflexivity.
  - intros H; inversion H; auto.
Qed.

Lemma box_eqb_refl (a : box) : box_eqb a a = true.
Proof. apply box_eqb_eq. reflexivity. Qed.

(** ** Rounding *)

Lemma py_round_compat (q1 q2 : Q) : q1 == q2 -> py_round q1 = py_round q2.
Proof.
  intros H. unfold py_round. rewrite (Qred_complete _ _ H). reflexivity.
Qed.

Lemma round4_compat (q1 q2 : Q) : q1 == q2 -> round4 q1 = round4 q2.
Proof.
  intros H. unfold round4. f_equal. apply py_round_compat.
  rewrite H. reflexivity.
Qed.

(** The rounded value is a nearest integer: it is at most 1/2 away. *)
Lemma py_round_nearest (q : Q) :
  (Qabs (inject_Z (py_round q) - q) <= 1 # 2)%Q.
Proof.
  rewrite <- (Qred_correct q) at 2.
  unfold py_round.
  destruct (Qred q) as [n d]. simpl Qnum. simpl Qden.
  pose proof (Z.div_mod n (Zpos d) ltac:(lia)) as Hdm.
  pose proof (Z.mod_pos_bound n (Zpos d) ltac:(lia)) as Hb.
  set (fl := (n / Zpos d)%Z) in *.
  set (rm := (n mod Zpos d)%Z) in *.
  apply Qabs_Qle_condition.
  assert (Hfl : (- (1 # 2) <= inject_Z fl - (n # d) <= 1 # 2)%Q \/
                ~ (2 * rm <= Zpos d)%Z).
  { destruct (Z.le_gt_cases (2 * rm) (Zpos d)); [left|right; lia].
    unfold Qle, Qminus, Qplus, Qopp, inject_Z; simpl. split; nia. }
  assert (Hfl1 : (- (1 # 2) <= inject_Z (fl + 1) - (n # d) <= 1 # 2)%Q \/
                 ~ (Zpos d <= 2 * rm)%Z).
  { destruct (Z.le_gt_cases (Zpos d) (2 * rm)); [left|right; lia].
    unfold Qle, Qminus, Qplus, Qopp, inject_Z; simpl. split; nia. }
  destruct (Z.ltb_spec (2 * rm) (Zpos d)).
  - destruct Hfl; [assumption|lia].
  - destruct (Z.ltb_spec (Zpos d) (2 * rm)).
    + destruct Hfl1; [assumption|lia].
    + destruct (Z.even fl).
      * destruct Hfl; [assumption|lia].
      * destruct Hfl1; [assumption|lia].
Qed.

(** ** [max] and the selection of the winning index *)

Lemma Qgt_bool_true (x y : Q) : Qgt_bool x y = true <-> (y < x)%Q.
Proof.
  unfold Qgt_bool. rewrite negb_true_iff.
  destruct (Qle_bool x y) eqn:E.
  - apply Qle_bool_iff in E. split; [discriminate|].
    intros H. exfalso. exact (Qlt_not_le _ _ H E).
  - split; [intros _|reflexivity].
    apply Qnot_le_lt. intros H. apply Qle_bool_iff in H. congruence.
Qed.

Lemma fold_max_spec (l : list Q) (x : Q) :
  let m := fold_left (fun m y => if Qgt_bool y m then y else m) l x in
  In m (x :: l) /\ Forall (fun y => (y <= m)%Q) (x :: l).
Proof.
  revert x; induction l as [|y l IH]; intros x; simpl.
  - split; [auto|]. constructor; [apply Qle_refl|constructor].
  - specialize (IH (if Qgt_bool y x then y else x)).
    simpl in IH. destruct IH as [Hin Hall].
    inversion Hall as [|? ? Hhd Htl]; subst.
    destruct (Qgt_bool y x) eqn:E.
    + apply Qgt_bool_true in E. split; [tauto|].
      constructor; [|constructor; assumption].
      apply Qle_trans with y; [apply Qlt_le_weak; assumption|assumption].
    + split; [tauto|].
      constructor; [assumption|constructor; [|assumption]].
      apply Qle_trans with x; [|assumption].
      apply Qnot_lt_le. intros H. apply Qgt_bool_true in H. congruence.
Qed.

Lemma py_max_spec (l : list Q) :
  l <> [] ->
  exists m, py_max l = Ok m /\ In m l /\ Forall (fun y => (y <= m)%Q) l.
Proof.
  destruct l as [|x l]; [congruence|]. intros _.
  eexists. split; [reflexivity|]. apply fold_max_spec.
Qed.

Lemma first_with_map (f : nat -> Q) (idxs : list nat) (m : Q) :
  first_with idxs (map f idxs) m =
  index (filter (fun i => Qeq_bool (f i) m) idxs) 0.
Proof.
  unfold first_with. f_equal.
  induction idxs as [|i idxs IH]; simpl; [reflexivity|].
  destruct (Qeq_bool (f i) m); simpl; rewrite IH; reflexivity.
Qed.

Lemma first_max_In (f : nat -> Q) (idxs : list nat) (w : nat) :
  first_max f idxs w -> In w idxs.
Proof.
  intros (pre & post & -> & _). apply in_or_app. right. left. reflexivity.
Qed.

Lemma filter_first (P : nat -> bool) (idxs : list nat) :
  (exists g, In g idxs /\ P g = true) ->
  exists w pre post,
    idxs = pre ++ w :: post /\ P w = true /\
    Forall (fun g => P g = false) pre /\
    index (filter P idxs) 0 = Ok w.
Proof.
  induction idxs as [|i idxs IH]; intros (g & Hg & Pg); [destruct Hg|].
  destruct (P i) eqn:Pi.
  - exists i, [], idxs. simpl. rewrite Pi. auto.
  - destruct IH as (w & pre & post & -> & Pw & Hpre & Hidx).
    { destruct Hg as [->|Hg]; [congruence|eauto]. }
    exists w, (i :: pre), post. simpl. rewrite Pi. auto.
Qed.

(** Lines 159-166 and 187-191: the maximum of the probabilities of the
    listed indices, then the first listed index carrying it. *)
Lemma select_spec (f : nat -> Q) (idxs : list nat) :
  idxs <> [] ->
  exists m w,
    py_max (map f idxs) = Ok m /\
    first_with idxs (map f idxs) m = Ok w /\
    first_max f idxs w /\ (m == f w)%Q.
Proof.
  intros Hne.
  destruct (py_max_spec (map f idxs)) as (m & Hm & Hin & Hall).
  { destruct idxs; [congruence|discriminate]. }
  apply in_map_iff in Hin. destruct Hin as (g & Hg & Hgin).
  destruct (filter_first (fun i => Qeq_bool (f i) m) idxs)
    as (w & pre & post & E & Pw & Hpre & Hidx).
  { exists g. split; [assumption|]. rewrite Hg. apply Qeq_bool_refl. }
  apply Qeq_bool_iff in Pw.
  exists m, w. split; [assumption|].
  split; [rewrite first_with_map; assumption|].
  split; [|symmetry; assumption].
  rewrite Forall_forall in Hall.
  assert (Hle : forall i, In i idxs -> (f i <= f w)%Q).
  { intros i Hi. rewrite Pw. apply Hall. apply in_map. assumption. }
  exists pre, post. split; [assumption|]. split.
  - rewrite Forall_forall in *. intros i Hi.
    assert (Hi' : In i idxs) by (rewrite E; apply in_or_app; left; exact Hi).
    destruct (Qle_lt_or_eq _ _ (Hle i Hi')) as [Hlt|Heq]; [assumption|].
    specialize (Hpre i Hi). simpl in Hpre.
    assert (Qeq_bool (f i) m = true)
      by (apply Qeq_bool_iff; rewrite Heq; assumption).
    congruence.
  - rewrite Forall_forall. intros i Hi. apply Hle.
    rewrite E. apply in_or_app. right. right. assumption.
Qed.

(** ** The rules on aligned input *)

Lemma exact_indices_In (obj : box) (objects : list box) (j : nat) :
  In j (exact_indices obj objects) <-> nth_error objects j = Some obj.
Proof.
  unfold exact_indices.
  rewrite (enumerate_filter_In (fun c => box_eqb c obj)).
  split.
  - intros (c & H & E). apply box_eqb_eq in E. congruence.
  - intros H. exists obj. split; [assumption|apply box_eqb_refl].
Qed.

Lemma count_pos (objects : list box) (obj : box) (j : nat) :
  nth_error objects j = Some obj -> 1 <= count objects obj.
Proof.
  intros H. apply nth_error_In in H. unfold count.
  assert (Hin : In obj (filter (box_eqb obj) objects))
    by (apply filter_In; split; [assumption|apply box_eqb_refl]).
  destruct (filter (box_eqb obj) objects); [destruct Hin|simpl; lia].
Qed.

Section Aligned.

Variable objects : list box.
Variable labels : list label.
Variable probs : list Q.

Hypothesis Hlabels : length objects = length labels.
Hypothesis Hprobs : length labels = length probs.

Let N := length objects.
Let probf (i : nat) : Q := nth i probs 0%Q.

Lemma probs_comprehension (idxs : list nat) :
  Forall (fun i => i < N) idxs ->
  comprehension (index probs) idxs = Ok (map probf idxs).
Proof.
  intros H. apply comprehension_ok.
  eapply Forall_impl; [|exact H]. simpl. intros i Hi.
  apply index_nth. subst N. lia.
Qed.

Lemma near_duplicate_rule_spec (cnt : nat) :
  cnt < N ->
  exists ow,
    near_winner objects probs cnt ow /\
    forall s, length s = N ->
      near_duplicate_rule objects labels probs cnt
        (nth cnt objects default_box) (probf cnt) s
      = (write_slot objects labels probs ow s, Ok tt).
Proof.
  intros Hc. unfold near_duplicate_rule, near_winner.
  set (obj := nth cnt objects default_box).
  destruct (bbs_pixel_apart obj objects) as [|i0 near0] eqn:Enear.
  - exists None. split; [reflexivity|]. intros s _. reflexivity.
  - set (near := i0 :: near0) in *.
    assert (Hnear : Forall (fun i => i < N) near).
    { apply Forall_forall. intros i Hi. rewrite <- Enear in Hi.
      eapply bbs_pixel_apart_lt; eassumption. }
    destruct (select_spec probf (near ++ [cnt]))
      as (m & w & Hmax & Hfirst & Hw & Hm).
    { destruct near; discriminate. }
    exists (Some w). split; [split; [discriminate|assumption]|].
    intros s Hs.
    assert (Hwlt : w < N).
    { apply first_max_In in Hw. apply in_app_or in Hw.
      rewrite Forall_forall in Hnear.
      destruct Hw as [Hw|[<-|[]]]; auto. }
    replace (0 <? length near) with true by reflexivity.
    unfold bind, lift.
    rewrite (probs_comprehension near Hnear).
    replace (map probf near ++ [probf cnt]) with (map probf (near ++ [cnt]))
      by (rewrite map_app; reflexivity).
    rewrite Hmax.
    rewrite length_map, Nat.eqb_refl. simpl py_assert. cbv iota.
    rewrite Hfirst.
    rewrite (index_nth objects w default_box) by (subst N; lia).
    rewrite (index_nth labels w (ClassId 0)) by (subst N; lia).
    unfold write. rewrite Hs.
    destruct (Nat.ltb_spec w N); [|lia].
    simpl. unfold write_slot, record_of.
    rewrite (round4_compat _ _ Hm). reflexivity.
Qed.

Lemma exact_duplicate_rule_spec (cnt : nat) :
  cnt < N ->
  exists w,
    first_max probf (exact_indices (nth cnt objects default_box) objects) w /\
    forall s, length s = N ->
      exact_duplicate_rule objects labels probs
        (nth cnt objects default_box) s
      = (write_slot objects labels probs (Some w) s, Ok tt).
Proof.
  intros Hc. unfold exact_duplicate_rule.
  set (obj := nth cnt objects default_box).
  fold (exact_indices obj objects).
  set (idxs := exact_indices obj objects).
  assert (Hcnt : In cnt idxs).
  { apply exact_indices_In. apply nth_error_nth'. assumption. }
  assert (Hidxs : Forall (fun i => i < N) idxs).
  { apply Forall_forall. intros i Hi. apply exact_indices_In in Hi.
    apply nth_error_Some. congruence. }
  destruct (select_spec probf idxs) as (m & w & Hmax & Hfirst & Hw & Hm).
  { intros E. rewrite E in Hcnt. destruct Hcnt. }
  exists w. split; [assumption|]. intros s Hs.
  assert (Hwin : In w idxs) by (eapply first_max_In; eassumption).
  assert (Hwlt : w < N) by (rewrite Forall_forall in Hidxs; auto).
  assert (Hwbox : nth w objects default_box = obj).
  { apply exact_indices_In in Hwin. apply nth_error_nth. assumption. }
  unfold bind, lift.
  rewrite (comprehension_ok _ (fun i => (i, probf i))).
  2:{ eapply Forall_impl; [|exact Hidxs]. simpl. intros i Hi.
      rewrite (index_nth probs i 0%Q) by (subst N; lia). reflexivity. }
  rewrite !map_map. cbn [fst snd]. rewrite map_id.
  change (fun x : nat => probf x) with probf.
  rewrite Hmax, Hfirst.
  rewrite (index_nth labels w (ClassId 0)) by (subst N; lia).
  unfold write. rewrite Hs.
  destruct (Nat.ltb_spec w N); [|lia].
  simpl. unfold write_slot, record_of.
  rewrite (round4_compat _ _ Hm), Hwbox. reflexivity.
Qed.

(** One iteration performs the write of the near-duplicate rule, if any,
    and then the write of the exact-count rule, and does not raise. *)
Lemma iteration_spec (cnt : nat) :
  cnt < N ->
  exists ow w,
    near_winner objects probs cnt ow /\ exact_winner objects probs cnt w /\
    forall s, length s = N ->
      iteration objects labels probs cnt (nth cnt objects default_box)
                (nth cnt labels (ClassId 0)) (probf cnt) s
      = (write_slot objects labels probs (Some w) (write_slot objects labels probs ow s), Ok tt).
Proof.
  intros Hc.
  destruct (near_duplicate_rule_spec cnt Hc) as (ow & Hnear & Hrule).
  assert (Hlen : forall s, length s = N -> length (write_slot objects labels probs ow s) = N).
  { intros s Hs. destruct ow; simpl; [rewrite length_set_nth|]; assumption. }
  pose proof (count_pos objects _ cnt (nth_error_nth' objects default_box Hc))
    as Hpos.
  unfold exact_winner, iteration.
  destruct (Nat.eqb_spec (count objects (nth cnt objects default_box)) 1)
    as [E|E].
  - exists ow, cnt. split; [assumption|]. split; [reflexivity|].
    intros s Hs. unfold bind. rewrite (Hrule s Hs).
    unfold unique_rule, write. rewrite (Hlen s Hs).
    destruct (Nat.ltb_spec cnt N); [|lia]. reflexivity.
  - destruct (exact_duplicate_rule_spec cnt Hc) as (w & Hw & Hexact).
    exists ow, w. split; [assumption|]. split; [assumption|].
    intros s Hs. unfold bind. rewrite (Hrule s Hs).
    destruct (Nat.ltb_spec 1 (count objects (nth cnt objects default_box)));
      [|lia].
    apply Hexact. apply Hlen. assumption.
Qed.

End Aligned.

(** ** The pass over all indices *)

Lemma skipn_nth_cons {A : Type} (l : list A) (n : nat) (d : A) :
  n < length l -> skipn n l = nth n l d :: skipn (S n) l.
Proof.
  revert n; induction l as [|x l IH]; intros [|n] H; simpl in *;
    try lia; [reflexivity|].
  apply IH. lia.
Qed.

Section Invariant.

Variable objects : list box.
Variable labels : list label.
Variable probs : list Q.

Hypothesis Hlabels : length objects = length labels.
Hypothesis Hprobs : length labels = length probs.

Let N := length objects.
Let items := combine objects (combine labels probs).

Lemma slots_ok_empty : slots_ok objects labels probs (repeat None N).
Proof.
  split; [apply repeat_length|].
  intros j d H. apply nth_error_In, repeat_spec in H. discriminate.
Qed.

Lemma write_slot_ok (ow : option nat) (s : slots) :
  slots_ok objects labels probs s -> slots_ok objects labels probs (write_slot objects labels probs ow s).
Proof.
  intros [Hlen Hs]. destruct ow as [w|]; simpl; [|split; assumption].
  split; [rewrite length_set_nth; assumption|].
  intros j d. destruct (Nat.eq_dec w j) as [->|Hne].
  - destruct (Nat.lt_ge_cases j (length s)) as [Hj|Hj].
    + rewrite nth_error_set_nth_eq by assumption.
      intros H. inversion H. reflexivity.
    + intros H. assert (j < length (set_nth s j (Some (record_of objects labels probs j)))).
      { apply nth_error_Some. congruence. }
      rewrite length_set_nth in *. lia.
  - rewrite nth_error_set_nth_ne by assumption. apply Hs.
Qed.

Lemma write_slot_written (ow : option nat) (s : slots) (j : nat) :
  written objects labels probs s j -> written objects labels probs (write_slot objects labels probs ow s) j.
Proof.
  unfold written. intros H. destruct ow as [w|]; simpl; [|assumption].
  destruct (Nat.eq_dec w j) as [->|Hne].
  - apply nth_error_set_nth_eq. apply nth_error_Some. congruence.
  - rewrite nth_error_set_nth_ne; assumption.
Qed.

Lemma write_slot_self (w : nat) (s : slots) :
  w < length s -> written objects labels probs (write_slot objects labels probs (Some w) s) w.
Proof.
  intros H. apply nth_error_set_nth_eq. assumption.
Qed.

Lemma items_length : length items = N.
Proof.
  unfold items. rewrite !length_combine. subst N. lia.
Qed.

Lemma items_nth (cnt : nat) :
  nth cnt items (default_box, (ClassId 0, 0%Q)) =
  (nth cnt objects default_box, (nth cnt labels (ClassId 0), nth cnt probs 0%Q)).
Proof.
  unfold items.
  rewrite combine_nth by (rewrite length_combine; lia).
  rewrite combine_nth by assumption. reflexivity.
Qed.

(** The loop from index [cnt] on does not raise, keeps every filled slot
    filled with the record of its own index, and fills the slot of every
    remaining index whose box occurs exactly once. *)
Lemma loop_spec (k : nat) : forall (cnt : nat) (s : slots),
  cnt + k = N -> slots_ok objects labels probs s ->
  exists s',
    loop objects labels probs cnt (skipn cnt items) s = (s', Ok tt) /\
    slots_ok objects labels probs s' /\
    (forall j, written objects labels probs s j -> written objects labels probs s' j) /\
    (forall j, cnt <= j < N ->
               count objects (nth j objects default_box) = 1 ->
               written objects labels probs s' j).
Proof.
  induction k as [|k IH]; intros cnt s Hk Hok.
  - rewrite skipn_all2 by (rewrite items_length; lia).
    exists s. simpl. unfold ret. repeat split; try apply Hok; auto.
    intros j Hj. lia.
  - assert (Hc : cnt < N) by lia.
    rewrite (skipn_nth_cons items cnt (default_box, (ClassId 0, 0%Q)))
      by (rewrite items_length; assumption).
    rewrite items_nth. simpl loop.
    destruct (iteration_spec objects labels probs Hlabels Hprobs cnt Hc)
      as (ow & w & Hnear & Hexact & Hiter).
    unfold bind. rewrite (Hiter s (proj1 Hok)).
    set (s1 := write_slot objects labels probs (Some w)
                 (write_slot objects labels probs ow s)).
    assert (Hok1 : slots_ok objects labels probs s1) by (do 2 apply write_slot_ok; assumption).
    destruct (IH (S cnt) s1 ltac:(lia) Hok1) as (s' & Hloop & Hok' & Hmono & Huniq).
    exists s'. split; [assumption|]. split; [assumption|]. split.
    + intros j Hj. apply Hmono. do 2 apply write_slot_written. assumption.
    + intros j Hj Hone. destruct (Nat.eq_dec j cnt) as [->|Hne].
      * apply Hmono. unfold exact_winner in Hexact.
        rewrite Hone in Hexact. simpl in Hexact. subst w.
        apply write_slot_self.
        rewrite (proj1 (write_slot_ok ow s Hok)). assumption.
      * apply Huniq; [lia|assumption].
Qed.

(** The whole pass, from the empty slot array. *)
Lemma pass_spec :
  exists s',
    loop objects labels probs 0 items (repeat None N) = (s', Ok tt) /\
    slots_ok objects labels probs s' /\
    (forall j, j < N ->
               count objects (nth j objects default_box) = 1 ->
               written objects labels probs s' j).
Proof.
  destruct (loop_spec N 0 (repeat None N) eq_refl slots_ok_empty)
    as (s' & Hloop & Hok & _ & Huniq).
  exists s'. simpl skipn in Hloop. split; [assumption|].
  split; [assumption|]. intros j Hj. apply Huniq. lia.
Qed.

End Invariant.

(** ** Compaction *)

Lemma compact_length (s : slots) : length (compact s) <= length s.
Proof.
  induction s as [|[d|] s IH]; simpl; lia.
Qed.

Lemma compact_In (s : slots) (j : nat) (d : detection) :
  nth_error s j = Some (Some d) -> In d (compact s).
Proof.
  revert j; induction s as [|o s IH]; intros [|j] H; simpl in *;
    try discriminate.
  - inversion H; subst. left. reflexivity.
  - destruct o; [right|]; eapply IH; eassumption.
Qed.

(** The compacted list consists of the records of the filled slots, one per
    slot, in slot order. *)
Lemma compact_map (f : nat -> detection) (s : slots) : forall k,
  (forall j d, nth_error s j = Some (Some d) -> d = f (k + j)) ->
  exists idxs,
    compact s = map f idxs /\ NoDup idxs /\
    Forall (fun i => k <= i < k + length s) idxs.
Proof.
  induction s as [|o s IH]; intros k H.
  - exists []. simpl. repeat split; constructor.
  - destruct (IH (S k)) as (idxs & E & Hnd & Hall).
    { intros j d Hj. replace (S k + j) with (k + S j) by lia.
      apply H. exact Hj. }
    destruct o as [d|]; simpl.
    + exists (k :: idxs). split.
      * simpl. rewrite <- E. f_equal.
        rewrite (H 0 d eq_refl). f_equal. lia.
      * split.
        -- constructor; [|assumption]. intros Hin.
           rewrite Forall_forall in Hall. apply Hall in Hin. lia.
        -- constructor; [lia|].
           eapply Forall_impl; [|exact Hall]. simpl. intros; lia.
    + exists idxs. split; [assumption|]. split; [assumption|].
      eapply Forall_impl; [|exact Hall]. simpl. intros; lia.
Qed.

(** ** The sort *)

Lemma insert_desc_perm (d : detection) (l : list detection) :
  Permutation (insert_desc d l) (d :: l).
Proof.
  induction l as [|e l IH]; simpl; [reflexivity|].
  destruct (Qle_bool (prob e) (prob d)); [reflexivity|].
  rewrite IH. apply perm_swap.
Qed.

Lemma sorted_desc_perm (l : list detection) : Permutation (sorted_desc l) l.
Proof.
  induction l as [|d l IH]; simpl; [reflexivity|].
  rewrite insert_desc_perm. constructor. assumption.
Qed.

Lemma insert_desc_sorted (d : detection) (l : list detection) :
  Sorted prob_ge l -> Sorted prob_ge (insert_desc d l).
Proof.
  induction 1 as [|e l Hs IH Hhd]; simpl; [repeat constructor|].
  destruct (Qle_bool (prob e) (prob d)) eqn:E.
  - apply Qle_bool_iff in E.
    constructor; [constructor; assumption|constructor; exact E].
  - assert (Hlt : (prob d <= prob e)%Q).
    { apply Qlt_le_weak, Qnot_le_lt. intros H.
      apply Qle_bool_iff in H. congruence. }
    constructor; [assumption|].
    destruct l as [|e' l]; simpl; [constructor; exact Hlt|].
    destruct (Qle_bool (prob e') (prob d)); constructor;
      [exact Hlt | inversion Hhd; assumption].
Qed.

Lemma sorted_desc_sorted (l : list detection) : Sorted prob_ge (sorted_desc l).
Proof.
  induction l; simpl; [constructor|apply insert_desc_sorted; assumption].
Qed.

(** Adjacent records of a sorted list, in the words of the sort invariant. *)
Lemma sorted_adjacent (l : list detection) :
  Sorted prob_ge l ->
  forall k a b, nth_error l k = Some a -> nth_error l (S k) = Some b ->
                (prob b <= prob a)%Q.
Proof.
  induction 1 as [|e l Hs IH Hhd]; intros [|k] a b Ha Hb;
    simpl in *; try discriminate.
  - inversion Ha; subst. destruct l; [discriminate|].
    inversion Hb; subst. inversion Hhd; assumption.
  - eapply IH; eassumption.
Qed.

(** Stability: the records carrying any given probability are in the same
    relative order before and after the sort. *)
Lemma insert_desc_stable (q : Q) (d : detection) (l : list detection) :
  filter (fun e => Qeq_bool (prob e) q) (insert_desc d l) =
  filter (fun e => Qeq_bool (prob e) q) (d :: l).
Proof.
  induction l as [|e l IH]; [reflexivity|].
  simpl insert_desc. destruct (Qle_bool (prob e) (prob d)) eqn:E;
    [reflexivity|].
  simpl filter in *. rewrite IH.
  destruct (Qeq_bool (prob d) q) eqn:Ed; [|reflexivity].
  destruct (Qeq_bool (prob e) q) eqn:Ee; [|reflexivity].
  exfalso. apply Qeq_bool_iff in Ed, Ee.
  assert (Qle_bool (prob e) (prob d) = true).
  { apply Qle_bool_iff. rewrite Ed, Ee. apply Qle_refl. }
  congruence.
Qed.

Lemma sorted_desc_stable (q : Q) (l : list detection) :
  filter (fun e => Qeq_bool (prob e) q) (sorted_desc l) =
  filter (fun e => Qeq_bool (prob e) q) l.
Proof.
  induction l as [|d l IH]; [reflexivity|].
  simpl sorted_desc. rewrite insert_desc_stable.
  simpl. rewrite IH. reflexivity.
Qed.

(** ** The post-processing as a whole *)

Lemma postprocess_aligned (objects : list box) (labels : list label)
      (probs : list Q) :
  length objects = length labels -> length labels = length probs ->
  exists s,
    postprocess objects labels probs = (s, Ok (sorted_desc (compact s))) /\
    slots_ok objects labels probs s /\
    (forall j, j < length objects ->
               count objects (nth j objects default_box) = 1 ->
               written objects labels probs s j).
Proof.
  intros Hl Hp.
  destruct (pass_spec objects labels probs Hl Hp) as (s & Hloop & Hok & Huniq).
  exists s. split; [|split; assumption].
  unfold postprocess.
  rewrite Hl, Hp, !Nat.eqb_refl. simpl py_assert. cbv iota.
  rewrite <- Hp, <- Hl. rewrite Hloop. reflexivity.
Qed.

Lemma postprocess_misaligned (objects : list box) (labels : list label)
      (probs : list Q) :
  length objects <> length labels \/ length objects <> length probs ->
  postprocess objects labels probs =
  (repeat None (length objects), Raise AssertionError).
Proof.
  intros H. unfold postprocess.
  destruct (Nat.eqb_spec (length objects) (length labels)) as [E1|E1];
    [|reflexivity].
  destruct (Nat.eqb_spec (length labels) (length probs)) as [E2|E2];
    [|reflexivity].
  exfalso. destruct H; congruence.
Qed.

Lemma record_of_nth_error (objects : list box) (labels : list label)
      (probs : list Q) (i : nat) (obj : box) (l : label) (p : Q) :
  nth_error objects i = Some obj -> nth_error labels i = Some l ->
  nth_error probs i = Some p ->
  record_of objects labels probs i = mkDetection obj l (round4 p).
Proof.
  intros Ho Hl Hp. unfold record_of.
  rewrite (nth_error_nth _ _ _ Ho), (nth_error_nth _ _ _ Hl),
    (nth_error_nth _ _ _ Hp). reflexivity.
Qed.

(** * The division in single precision *)

Lemma float32_exponent_le (q : Q) :
  ~ (q == 0)%Q -> (2 ^ float32_exponent q <= Qabs q)%Q.
Proof.
  intros Hq. unfold float32_exponent.
  destruct (Qle_bool (2 ^ (Z.log2 (Z.abs (Qnum q)) - Z.log2 (Zpos (Qden q))))
                     (Qabs q)) eqn:E.
  - apply Qle_bool_iff. exact E.
  - clear E. destruct q as [qn qd]. simpl Qnum. simpl Qden.
    assert (Hn : (0 < Z.abs qn)%Z).
    { unfold Qeq in Hq. simpl in Hq. lia. }
    destruct (Z.log2_spec (Z.abs qn) Hn) as [Hn1 _].
    destruct (Z.log2_spec (Zpos qd) ltac:(lia)) as [_ Hd2].
    pose proof (Z.log2_nonneg (Z.abs qn)) as Ha.
    pose proof (Z.log2_nonneg (Zpos qd)) as Hc.
    set (a := Z.log2 (Z.abs qn)) in *. set (c := Z.log2 (Zpos qd)) in *.
    assert (Hpow : (0 < 2 ^ (c + 1))%Z) by (apply Z.pow_pos_nonneg; lia).
    replace (Z.succ c) with (c + 1)%Z in Hd2 by lia.
    assert (Ht : (2 ^ (a - c - 1) * inject_Z (2 ^ (c + 1)) ==
                  inject_Z (2 ^ a))%Q).
    { rewrite !Zpower_Qpower by lia.
      rewrite <- Qpower_plus by discriminate.
      replace (a - c - 1 + (c + 1))%Z with a by lia. reflexivity. }
    apply (Qmult_le_r _ _ (inject_Z (2 ^ (c + 1)))).
    + rewrite <- (Zlt_Qlt 0). assumption.
    + rewrite Ht. unfold Qle, Qabs, Qmult, inject_Z. simpl.
      rewrite Pos.mul_1_r. nia.
Qed.

Lemma float32_exponent_lt (q : Q) :
  (Qabs q < 2 ^ (float32_exponent q + 1))%Q.
Proof.
  unfold float32_exponent.
  destruct (Qle_bool (2 ^ (Z.log2 (Z.abs (Qnum q)) - Z.log2 (Zpos (Qden q))))
                     (Qabs q)) eqn:E.
  - clear E. destruct q as [qn qd]. simpl Qnum. simpl Qden.
    destruct (Z.log2_spec (Zpos qd) ltac:(lia)) as [Hd1 _].
    pose proof (Z.log2_nonneg (Z.abs qn)) as Ha.
    pose proof (Z.log2_nonneg (Zpos qd)) as Hc.
    assert (Hn2 : (Z.abs qn < 2 ^ (Z.log2 (Z.abs qn) + 1))%Z).
    { destruct (Z.eq_dec qn 0) as [->|Hne]; [reflexivity|].
      destruct (Z.log2_spec (Z.abs qn) ltac:(lia)) as [_ H].
      replace (Z.succ (Z.log2 (Z.abs qn)))
        with (Z.log2 (Z.abs qn) + 1)%Z in H by lia. exact H. }
    set (a := Z.log2 (Z.abs qn)) in *. set (c := Z.log2 (Zpos qd)) in *.
    assert (Hpow : (0 < 2 ^ c)%Z) by (apply Z.pow_pos_nonneg; lia).
    assert (Ht : (2 ^ (a - c + 1) * inject_Z (2 ^ c) ==
                  inject_Z (2 ^ (a + 1)))%Q).
    { rewrite !Zpower_Qpower by lia.
      rewrite <- Qpower_plus by discriminate.
      replace (a - c + 1 + c)%Z with (a + 1)%Z by lia. reflexivity. }
    apply (Qmult_lt_r _ _ (inject_Z (2 ^ c))).
    + rewrite <- (Zlt_Qlt 0). assumption.
    + rewrite Ht. unfold Qlt, Qabs, Qmult, inject_Z. simpl.
      rewrite Pos.mul_1_r. nia.
  - replace (Z.log2 (Z.abs (Qnum q)) - Z.log2 (Zpos (Qden q)) - 1 + 1)%Z
      with (Z.log2 (Z.abs (Qnum q)) - Z.log2 (Zpos (Qden q)))%Z by lia.
    apply Qnot_le_lt. intros H. apply Qle_bool_iff in H. congruence.
Qed.

Lemma float32_ulp_pos (q : Q) : (0 < float32_ulp q)%Q.
Proof.
  unfold float32_ulp. apply Qpower_0_lt. reflexivity.
Qed.

Lemma float32_ulp_bound (q : Q) :
  ~ (q == 0)%Q ->
  (float32_ulp q * (1 # 2) <= Qabs q * 2 ^ (-24) + 2 ^ (-150))%Q.
Proof.
  intros Hq. pose proof (float32_exponent_le q Hq) as He.
  pose proof (Qabs_nonneg q) as Hq0.
  unfold float32_ulp.
  destruct (Z.max_spec (float32_exponent q) (-126)) as [[Hlt ->]|[Hge ->]].
  - change (2 ^ (-126 - 23) * (1 # 2))%Q with (2 ^ (-150))%Q.
    assert (0 <= Qabs q * 2 ^ (-24))%Q
      by (apply Qmult_le_0_compat; [assumption|discriminate]).
    lra.
  - assert (E : (2 ^ (float32_exponent q - 23) * (1 # 2) ==
                 2 ^ float32_exponent q * 2 ^ (-24))%Q).
    { replace (float32_exponent q - 23)%Z
        with (float32_exponent q + -23)%Z by lia.
      rewrite Qpower_plus by discriminate.
      change (2 ^ (-23))%Q with (1 # 8388608)%Q.
      change (2 ^ (-24))%Q with (1 # 16777216)%Q. field. }
    rewrite E.
    assert ((2 ^ float32_exponent q * 2 ^ (-24) <= Qabs q * 2 ^ (-24))%Q)
      by (apply Qmult_le_compat_r; [assumption|discriminate]).
    assert (0 <= 2 ^ (-150))%Q by discriminate.
    lra.
Qed.

Lemma round_float32_error (q : Q) :
  (Qabs (round_float32 q - q) <= Qabs q * 2 ^ (-24) + 2 ^ (-150))%Q.
Proof.
  unfold round_float32. destruct (Qeq_bool q 0) eqn:E.
  - apply Qeq_bool_iff in E. rewrite E.
    change (Qabs (0 - 0)) with 0%Q. discriminate.
  - assert (Hq : ~ (q == 0)%Q)
      by (intros H; apply Qeq_bool_iff in H; congruence).
    pose proof (float32_ulp_pos q) as Hu.
    pose proof (float32_ulp_bound q Hq) as Hb.
    pose proof (py_round_nearest (q / float32_ulp q)) as Hr.
    set (u := float32_ulp q) in *.
    set (r := inject_Z (py_round (q / u))) in *.
    assert (Eq : (r * u - q == (r - q / u) * u)%Q) by (field; lra).
    rewrite Eq, Qabs_Qmult, (Qabs_pos u) by lra.
    apply Qle_trans with ((1 # 2) * u)%Q; [|lra].
    apply Qmult_le_compat_r; [assumption|lra].
Qed.

Lemma round_float32_finite (q : Q) :
  (Qabs q < 2 ^ 127)%Q -> float32_overflow (round_float32 q) = false.
Proof.
  intros Hq. unfold float32_overflow.
  destruct (Qle_bool (2 ^ 128) (Qabs (round_float32 q))) eqn:E;
    [exfalso|reflexivity].
  apply Qle_bool_iff in E.
  pose proof (round_float32_error q) as Hr.
  pose proof (Qabs_triangle (round_float32 q - q) q) as Ht.
  setoid_replace (round_float32 q - q + q)%Q with (round_float32 q) in Ht
    by ring.
  pose proof (Qabs_nonneg q) as H0.
  change (2 ^ (-24))%Q with (1 # 16777216)%Q in Hr.
  assert (H150 : (2 ^ (-150) <= 1)%Q) by discriminate.
  assert (H127 : (2 * 2 ^ 127 == 2 ^ 128)%Q) by reflexivity.
  assert (H1 : (1 <= 2 ^ 127 * (1 # 2))%Q) by discriminate.
  set (a := Qabs q) in *. set (x := Qabs (round_float32 q)) in *.
  set (y := Qabs (round_float32 q - q)) in *.
  set (p := (2 ^ 127)%Q) in *. set (p' := (2 ^ 128)%Q) in *.
  set (c := (2 ^ (-150))%Q) in *.
  lra.
Qed.

(** The rounded quotient, as the code computes it from the exact one. *)
Lemma rounded_quotient_intro (q : Q) :
  rounded_quotient (py_round (round_float32 q)) q.
Proof.
  split; [reflexivity|]. split; [apply py_round_nearest|].
  pose proof (py_round_nearest (round_float32 q)) as H1.
  pose proof (round_float32_error q) as H2.
  pose proof (Qabs_triangle (inject_Z (py_round (round_float32 q))
                             - round_float32 q) (round_float32 q - q)) as Ht.
  setoid_replace (inject_Z (py_round (round_float32 q)) - round_float32 q
                  + (round_float32 q - q))%Q
    with (inject_Z (py_round (round_float32 q)) - q)%Q in Ht by ring.
  lra.
Qed.

Lemma int_round_div_float32_Ok (coord divisor : Q) :
  ~ (divisor == 0)%Q -> (Qabs (coord / divisor) < 2 ^ 127)%Q ->
  int_round_div_float32 coord divisor =
  Ok (py_round (round_float32 (coord / divisor))).
Proof.
  intros Hd Hr. unfold int_round_div_float32.
  destruct (Qeq_bool divisor 0) eqn:E.
  - apply Qeq_bool_iff in E. contradiction.
  - rewrite (round_float32_finite _ Hr). reflexivity.
Qed.

(** The float32 rounding of the quotient shows in the result: 10.5 divided
    by the float32 nearest to 0.6 is 17.4999993..., stored as 17.5 and
    rounded to 18, where the exact quotient rounds to 17. *)
Lemma float32_quotient_example :
  int_round_div_float32 (105 # 10) (5033165 # 8388608) = Ok 18%Z /\
  int_round_div (105 # 10) (5033165 # 8388608) = Ok 17%Z.
Proof. split; reflexivity. Qed.

(** * The claims *)

(** C1.  Near-duplicate collapsing, evaluated on the code: for the boxes
    [[0,0,10,10],[0,0,10,11]] with probabilities [0.4, 0.95] the
    post-processing leaves BOTH slots filled and returns two records, the
    0.95 one first and the 0.4 one second; the lower-probability
    near-duplicate is not dropped, because the single-occurrence rule writes
    every box whose tuple occurs once. *)
Theorem C1_near_duplicate_pair_is_not_collapsed (l0 l1 : label) :
  postprocess [box_10_10; box_10_11] [l0; l1] [4 # 10; 95 # 100]%Q =
  ([Some (mkDetection box_10_10 l0 (4000 # 10000));
    Some (mkDetection box_10_11 l1 (9500 # 10000))],
   Ok [mkDetection box_10_11 l1 (9500 # 10000);
       mkDetection box_10_10 l0 (4000 # 10000)]).
Proof. reflexivity. Qed.

(** C2.  Unique box rule: on aligned input, every index [i] whose box occurs
    exactly once in the box list has its own record
    [(objects[i], labels[i], round(probs[i], 4))] in slot [i] at the end of
    the pass, whatever the near-duplicate rule did, and that record is in
    the returned list. *)
Theorem C2_unique_box_keeps_its_own_record
        (objects : list box) (labels : list label) (probs : list Q)
        (i : nat) (obj : box) (l : label) (p : Q) :
  length objects = length labels -> length labels = length probs ->
  nth_error objects i = Some obj -> nth_error labels i = Some l ->
  nth_error probs i = Some p ->
  count objects obj = 1 ->
  exists s out,
    postprocess objects labels probs = (s, Ok out) /\
    nth_error s i = Some (Some (mkDetection obj l (round4 p))) /\
    In (mkDetection obj l (round4 p)) out.
Proof.
  intros Hl Hp Ho Hli Hpi Hone.
  destruct (postprocess_aligned objects labels probs Hl Hp)
    as (s & Hpost & Hok & Huniq).
  assert (Hi : i < length objects) by (apply nth_error_Some; congruence).
  specialize (Huniq i Hi). rewrite (nth_error_nth _ _ _ Ho) in Huniq.
  specialize (Huniq Hone). unfold written in Huniq.
  rewrite (record_of_nth_error _ _ _ _ _ _ _ Ho Hli Hpi) in Huniq.
  exists s, (sorted_desc (compact s)).
  split; [assumption|]. split; [assumption|].
  apply (Permutation_in _ (Permutation_sym (sorted_desc_perm (compact s)))).
  eapply compact_In. eassumption.
Qed.

Lemma C2_unique_box_keeps_its_own_record_witness :
  exists s out,
    postprocess [box_10_10; box_10_11] [ClassId 1; ClassId 2]
                [4 # 10; 95 # 100]%Q = (s, Ok out) /\
    nth_error s 0 =
      Some (Some (mkDetection box_10_10 (ClassId 1) (round4 (4 # 10)))) /\
    In (mkDetection box_10_10 (ClassId 1) (round4 (4 # 10))) out.
Proof.
  apply (C2_unique_box_keeps_its_own_record
           [box_10_10; box_10_11] [ClassId 1; ClassId 2]
           [4 # 10; 95 # 100]%Q 0 box_10_10 (ClassId 1) (4 # 10)%Q);
    reflexivity.
Defined.

(** C3, as stated, fails on a tie.  For the boxes [[0,0,10,10],[0,0,10,11]]
    with probabilities [0.5, 0.5], the near-duplicate rule of iteration 0
    writes slot 1 (the record of box 1), although index 0 is the first
    occurrence of the highest probability in the original list. *)
Lemma C3_tie_goes_to_the_later_near_duplicate :
  let objects := [box_10_10; box_10_11] in
  let labels := [ClassId 1; ClassId 2] in
  let probs := [1 # 2; 1 # 2]%Q in
  let group := bbs_pixel_apart box_10_10 objects ++ [0] in
  near_duplicate_rule objects labels probs 0 box_10_10 (1 # 2) [None; None] =
    ([None; Some (mkDetection box_10_11 (ClassId 2) (5000 # 10000))], Ok tt) /\
  first_occurrence_max probs group 0 /\
  ~ first_occurrence_max probs group 1.
Proof.
  simpl. split; [reflexivity|]. split.
  - split; [right; left; reflexivity|]. split.
    + intros g [<-|[<-|[]]]; simpl; discriminate.
    + intros g _ Hg. lia.
  - intros (_ & _ & H).
    specialize (H 0 (or_intror (or_introl eq_refl)) ltac:(lia)).
    simpl in H. revert H. apply Qlt_irrefl.
Qed.

(** C3, amended.  On aligned input, for every index [cnt] whose box has at
    least one near-duplicate, the near-duplicate rule performs exactly one
    write and does not raise: it writes, into slot [w], the record made of
    the box, label and rounded probability of [w] itself, where [w] is the
    first index of highest probability in the group list, and the group list
    holds the near-duplicates of the box in index order followed by [cnt]
    itself (so [cnt] wins only with a strictly larger probability). *)
Theorem C3_near_duplicate_rule_writes_first_max_of_group
        (objects : list box) (labels : list label) (probs : list Q)
        (cnt : nat) (obj : box) (p : Q) (s : slots) :
  length objects = length labels -> length labels = length probs ->
  nth_error objects cnt = Some obj -> nth_error probs cnt = Some p ->
  bbs_pixel_apart obj objects <> [] ->
  length s = length objects ->
  exists w,
    first_max (fun i => nth i probs 0%Q)
              (bbs_pixel_apart obj objects ++ [cnt]) w /\
    near_duplicate_rule objects labels probs cnt obj p s =
    (set_nth s w (Some (mkDetection (nth w objects default_box)
                                    (nth w labels (ClassId 0))
                                    (round4 (nth w probs 0%Q)))),
     Ok tt).
Proof.
  intros Hl Hp Ho Hpc Hne Hs.
  assert (Hc : cnt < length objects) by (apply nth_error_Some; congruence).
  destruct (near_duplicate_rule_spec objects labels probs Hl Hp cnt Hc)
    as (ow & Hw & Hrule).
  rewrite (nth_error_nth _ _ default_box Ho) in Hrule.
  rewrite (nth_error_nth _ _ 0%Q Hpc) in Hrule.
  unfold near_winner in Hw. rewrite (nth_error_nth _ _ default_box Ho) in Hw.
  destruct ow as [w|]; [|contradiction].
  exists w. split; [apply Hw|]. apply (Hrule s Hs).
Qed.

Lemma C3_near_duplicate_rule_writes_first_max_of_group_witness :
  exists w,
    first_max (fun i => nth i [4 # 10; 95 # 100]%Q 0%Q)
              (bbs_pixel_apart box_10_10 [box_10_10; box_10_11] ++ [0]) w /\
    near_duplicate_rule [box_10_10; box_10_11] [ClassId 1; ClassId 2]
                        [4 # 10; 95 # 100]%Q 0 box_10_10 (4 # 10)
                        [None; None] =
    (set_nth [None; None] w
       (Some (mkDetection (nth w [box_10_10; box_10_11] default_box)
                          (nth w [ClassId 1; ClassId 2] (ClassId 0))
                          (round4 (nth w [4 # 10; 95 # 100]%Q 0%Q)))),
     Ok tt).
Proof.
  apply (C3_near_duplicate_rule_writes_first_max_of_group
           [box_10_10; box_10_11] [ClassId 1; ClassId 2]
           [4 # 10; 95 # 100]%Q 0 box_10_10 (4 # 10)%Q [None; None]);
    try reflexivity.
  discriminate.
Defined.

(** C4, evaluated on the code.  The example of the claim does give one
    record, but for the boxes [[0,0,10,11],[0,0,10,10],[0,0,10,10]] with
    probabilities [0.1, 0.5, 0.9] and labels [0, 1, 2] the tuple
    [0,0,10,10] ends with TWO records in the output: the exact-duplicate
    winner (label 2, 0.9) and also the losing occurrence (label 1, 0.5),
    which the near-duplicate rule of iteration 1 wrote into slot 1. *)
Theorem C4_exact_duplicate_loser_survives :
  postprocess [box_10_10; box_10_10] [ClassId 1; ClassId 2]
              [5 # 10; 9 # 10]%Q =
  ([None; Some (mkDetection box_10_10 (ClassId 2) (9000 # 10000))],
   Ok [mkDetection box_10_10 (ClassId 2) (9000 # 10000)]) /\
  postprocess [box_10_11; box_10_10; box_10_10]
              [ClassId 0; ClassId 1; ClassId 2]
              [1 # 10; 5 # 10; 9 # 10]%Q =
  ([Some (mkDetection box_10_11 (ClassId 0) (1000 # 10000));
    Some (mkDetection box_10_10 (ClassId 1) (5000 # 10000));
    Some (mkDetection box_10_10 (ClassId 2) (9000 # 10000))],
   Ok [mkDetection box_10_10 (ClassId 2) (9000 # 10000);
       mkDetection box_10_10 (ClassId 1) (5000 # 10000);
       mkDetection box_10_11 (ClassId 0) (1000 # 10000)]).
Proof. split; reflexivity. Qed.


(** C5.  Rescaling: with non-zero scale factors and quotients clear of the
    float32 overflow, a pair [(sh, sw)] divides [[xmin, ymin, xmax, ymax]]
    by [[sw, sh, sw, sh]] and a scalar divides all four coordinates by
    itself; every coordinate of the result comes from its quotient by one
    and the same rule, [round] of the stored float32 quotient, which gives a
    nearest integer of the stored quotient and is at most
    [1/2 + |q|/2^24 + 2^-150] away from the exact quotient [q].
    [[100,100,200,200]] maps to [[50,50,100,100]] under 2.0 and to
    [[25,50,50,100]] under (2.0, 4.0). *)
Theorem C5_rescale_divides_then_rounds (sf : scale) (o : raw_box) :
  scale_nonzero sf -> quotients_in_range sf o ->
  (exists b,
      rescale_box_float32 sf o = Ok b /\
      match sf with
      | Pair sh sw =>
          rounded_quotient (xmin b) (rxmin o / sw) /\
          rounded_quotient (ymin b) (rymin o / sh) /\
          rounded_quotient (xmax b) (rxmax o / sw) /\
          rounded_quotient (ymax b) (rymax o / sh)
      | Scalar s =>
          rounded_quotient (xmin b) (rxmin o / s) /\
          rounded_quotient (ymin b) (rymin o / s) /\
          rounded_quotient (xmax b) (rxmax o / s) /\
          rounded_quotient (ymax b) (rymax o / s)
      end) /\
  rescale_float32 (Scalar 2) [mkRaw 100 100 200 200]
    = Ok [mkBox 50 50 100 100] /\
  rescale_float32 (Pair 2 4) [mkRaw 100 100 200 200]
    = Ok [mkBox 25 50 50 100].
Proof.
  intros Hsf Hr. split; [|split; reflexivity].
  unfold rescale_box_float32, quotients_in_range in *.
  destruct sf as [s|sh sw]; simpl in *.
  - destruct Hr as (H0 & H1 & H2 & H3).
    rewrite !int_round_div_float32_Ok by assumption. simpl.
    eexists. split; [reflexivity|]. simpl.
    repeat split; apply rounded_quotient_intro.
  - destruct Hsf as [Hh Hw]. destruct Hr as (H0 & H1 & H2 & H3).
    rewrite !int_round_div_float32_Ok by assumption. simpl.
    eexists. split; [reflexivity|]. simpl.
    repeat split; apply rounded_quotient_intro.
Qed.

Lemma C5_rescale_divides_then_rounds_witness :
  (exists b,
      rescale_box_float32 (Pair 2 4) (mkRaw 100 100 200 200) = Ok b /\
      rounded_quotient (xmin b) (100 / 4) /\
      rounded_quotient (ymin b) (100 / 2) /\
      rounded_quotient (xmax b) (200 / 4) /\
      rounded_quotient (ymax b) (200 / 2)) /\
  rescale_float32 (Scalar 2) [mkRaw 100 100 200 200]
    = Ok [mkBox 50 50 100 100] /\
  rescale_float32 (Pair 2 4) [mkRaw 100 100 200 200]
    = Ok [mkBox 25 50 50 100].
Proof.
  apply (C5_rescale_divides_then_rounds (Pair 2 4) (mkRaw 100 100 200 200)).
  - simpl. split; discriminate.
  - unfold quotients_in_range. simpl. repeat split.
Defined.

(** C6.  The post-processing raises exactly when the three sequences are
    not of one length; the exception is then the [AssertionError] of line
    150, raised with every slot of [predictions] still empty; on sequences
    of one length it returns a list. *)
Theorem C6_assertion_iff_misaligned
        (objects : list box) (labels : list label) (probs : list Q) :
  ((exists e, snd (postprocess objects labels probs) = Raise e) <->
   misaligned objects labels probs) /\
  (misaligned objects labels probs ->
   postprocess objects labels probs =
   (repeat None (length objects), Raise AssertionError)) /\
  (~ misaligned objects labels probs ->
   exists s out, postprocess objects labels probs = (s, Ok out)).
Proof.
  assert (Hal : ~ misaligned objects labels probs ->
                exists s out, postprocess objects labels probs = (s, Ok out)).
  { unfold misaligned. intros H.
    destruct (postprocess_aligned objects labels probs) as (s & E & _);
      [lia|lia|eauto]. }
  split; [|split; [apply postprocess_misaligned|exact Hal]].
  split.
  - intros (e & He).
    destruct (Nat.eq_dec (length objects) (length labels));
      [|left; assumption].
    destruct (Nat.eq_dec (length objects) (length probs));
      [|right; assumption].
    exfalso. destruct Hal as (s & out & E).
    + unfold misaligned. lia.
    + rewrite E in He. discriminate.
  - intros H. exists AssertionError.
    rewrite (postprocess_misaligned _ _ _ H). reflexivity.
Qed.

(** C7.  On aligned input the returned list is in descending order of
    [prob] (each record's probability is at least that of the next one), and
    the sort is stable: the records carrying any given probability appear in
    the order they have in the compacted slot array. *)
Theorem C7_output_sorted_descending_and_stable
        (objects : list box) (labels : list label) (probs : list Q) :
  length objects = length labels -> length labels = length probs ->
  exists s out,
    postprocess objects labels probs = (s, Ok out) /\
    (forall k a b,
        nth_error out k = Some a -> nth_error out (S k) = Some b ->
        (prob b <= prob a)%Q) /\
    (forall q,
        filter (fun d => Qeq_bool (prob d) q) out =
        filter (fun d => Qeq_bool (prob d) q) (compact s)).
Proof.
  intros Hl Hp.
  destruct (postprocess_aligned objects labels probs Hl Hp) as (s & E & _).
  exists s, (sorted_desc (compact s)). split; [assumption|]. split.
  - apply sorted_adjacent, sorted_desc_sorted.
  - intros q. apply sorted_desc_stable.
Qed.

Lemma C7_output_sorted_descending_and_stable_witness :
  exists s out,
    postprocess [box_10_11; box_10_10; box_10_10]
                [ClassId 0; ClassId 1; ClassId 2]
                [5 # 10; 5 # 10; 9 # 10]%Q = (s, Ok out) /\
    (forall k a b,
        nth_error out k = Some a -> nth_error out (S k) = Some b ->
        (prob b <= prob a)%Q) /\
    (forall q,
        filter (fun d => Qeq_bool (prob d) q) out =
        filter (fun d => Qeq_bool (prob d) q) (compact s)).
Proof.
  apply (C7_output_sorted_descending_and_stable
           [box_10_11; box_10_10; box_10_10]
           [ClassId 0; ClassId 1; ClassId 2]
           [5 # 10; 5 # 10; 9 # 10]%Q); reflexivity.
Defined.

(** C8.  On aligned input of N boxes the slot array keeps length N, the
    returned list is its compaction reordered and so has at most N records;
    zero boxes give the empty list, without error. *)
Theorem C8_output_no_longer_than_input
        (objects : list box) (labels : list label) (probs : list Q) :
  length objects = length labels -> length labels = length probs ->
  (exists s out,
      postprocess objects labels probs = (s, Ok out) /\
      length s = length objects /\
      length out = length (compact s) /\
      length out <= length objects) /\
  postprocess [] [] [] = ([], Ok []).
Proof.
  intros Hl Hp. split; [|reflexivity].
  destruct (postprocess_aligned objects labels probs Hl Hp)
    as (s & E & [Hlen _] & _).
  exists s, (sorted_desc (compact s)).
  assert (Hout : length (sorted_desc (compact s)) = length (compact s))
    by (apply Permutation_length, sorted_desc_perm).
  repeat split; try assumption.
  rewrite Hout, <- Hlen. apply compact_length.
Qed.

Lemma C8_output_no_longer_than_input_witness :
  (exists s out,
      postprocess [box_10_10; box_10_10] [ClassId 1; ClassId 2]
                  [5 # 10; 9 # 10]%Q = (s, Ok out) /\
      length s = 2 /\
      length out = length (compact s) /\
      length out <= 2) /\
  postprocess [] [] [] = ([], Ok []).
Proof.
  apply (C8_output_no_longer_than_input
           [box_10_10; box_10_10] [ClassId 1; ClassId 2]
           [5 # 10; 9 # 10]%Q); reflexivity.
Defined.

(** C9.  Provenance: on aligned input the returned list is the list of the
    records [(objects[i], labels[i], round(probs[i], 4))] of some indices
    [i < N], each index taken at most once; so the three fields of a record
    always come from one and the same index, and distinct records come from
    distinct indices. *)
Theorem C9_output_records_come_from_distinct_indices
        (objects : list box) (labels : list label) (probs : list Q) :
  length objects = length labels -> length labels = length probs ->
  exists s out idxs,
    postprocess objects labels probs = (s, Ok out) /\
    out = map (record_of objects labels probs) idxs /\
    NoDup idxs /\
    Forall (fun i => i < length objects) idxs.
Proof.
  intros Hl Hp.
  destruct (postprocess_aligned objects labels probs Hl Hp)
    as (s & E & [Hlen Hrec] & _).
  destruct (compact_map (record_of objects labels probs) s 0 Hrec)
    as (idxs0 & Ec & Hnd & Hall).
  pose proof (sorted_desc_perm (compact s)) as Hperm.
  rewrite Ec in Hperm at 2.
  apply Permutation_map_inv in Hperm. destruct Hperm as (idxs & Eout & Hp').
  exists s, (sorted_desc (compact s)), idxs.
  split; [assumption|]. split; [assumption|]. split.
  - eapply Permutation_NoDup; eassumption.
  - eapply Permutation_Forall; [eassumption|].
    eapply Forall_impl; [|exact Hall]. simpl. intros i Hi.
    rewrite <- Hlen. lia.
Qed.

Lemma C9_output_records_come_from_distinct_indices_witness :
  exists s out idxs,
    postprocess [box_10_11; box_10_10; box_10_10]
                [ClassId 0; ClassId 1; ClassId 2]
                [1 # 10; 5 # 10; 9 # 10]%Q = (s, Ok out) /\
    out = map (record_of [box_10_11; box_10_10; box_10_10]
                         [ClassId 0; ClassId 1; ClassId 2]
                         [1 # 10; 5 # 10; 9 # 10]%Q) idxs /\
    NoDup idxs /\
    Forall (fun i => i < 3) idxs.
Proof.
  apply (C9_output_records_come_from_distinct_indices
           [box_10_11; box_10_10; box_10_10]
           [ClassId 0; ClassId 1; ClassId 2]
           [1 # 10; 5 # 10; 9 # 10]%Q); reflexivity.
Defined.

(** C10.  The near-duplicate relation is symmetric: for boxes [a] at index
    [i] and [b] at index [j] of the list, [i] is in the group of [b] exactly
    when [j] is in the group of [a]; and two identical boxes are never in
    each other's group. *)
Theorem C10_near_duplicate_symmetric_and_irreflexive
        (objects : list box) (i j : nat) (a b : box) :
  nth_error objects i = Some a -> nth_error objects j = Some b ->
  (In i (bbs_pixel_apart b objects) <-> In j (bbs_pixel_apart a objects)) /\
  (a = b ->
   ~ In i (bbs_pixel_apart b objects) /\ ~ In j (bbs_pixel_apart a objects)).
Proof.
  intros Hi Hj.
  assert (Ei : In i (bbs_pixel_apart b objects) <-> pixel_apart a b = true).
  { rewrite bbs_pixel_apart_In. split.
    - intros (c & Hc & H). congruence.
    - intros H. eauto. }
  assert (Ej : In j (bbs_pixel_apart a objects) <-> pixel_apart b a = true).
  { rewrite bbs_pixel_apart_In. split.
    - intros (c & Hc & H). congruence.
    - intros H. eauto. }
  rewrite Ei, Ej. split.
  - rewrite pixel_apart_sym. reflexivity.
  - intros ->. rewrite pixel_apart_irrefl. split; discriminate.
Qed.

Lemma C10_near_duplicate_symmetric_and_irreflexive_witness :
  (In 0 (bbs_pixel_apart box_10_11 [box_10_10; box_10_11]) <->
   In 1 (bbs_pixel_apart box_10_10 [box_10_10; box_10_11])) /\
  (box_10_10 = box_10_11 ->
   ~ In 0 (bbs_pixel_apart box_10_11 [box_10_10; box_10_11]) /\
   ~ In 1 (bbs_pixel_apart box_10_10 [box_10_10; box_10_11])).
Proof.
  apply (C10_near_duplicate_symmetric_and_irreflexive
           [box_10_10; box_10_11] 0 1 box_10_10 box_10_11); reflexivity.
Defined.

(** * Further properties of the post-processing *)

(** ** More on rounding *)

Lemma py_round_monotone (q1 q2 : Q) :
  (q1 <= q2)%Q -> (py_round q1 <= py_round q2)%Z.
Proof.
  intros Hle.
  destruct (Z.le_gt_cases (py_round q1) (py_round q2)) as [H|H];
    [assumption|exfalso].
  pose proof (py_round_nearest q1) as H1.
  pose proof (py_round_nearest q2) as H2.
  apply Qabs_Qle_condition in H1, H2.
  assert (Hz : (inject_Z (py_round q2) + 1 <= inject_Z (py_round q1))%Q).
  { change 1%Q with (inject_Z 1). rewrite <- inject_Z_plus.
    rewrite <- Zle_Qle. lia. }
  assert (Heq : (q1 == q2)%Q) by lra.
  rewrite (py_round_compat _ _ Heq) in H. lia.
Qed.


Lemma round4_monotone (q1 q2 : Q) :
  (q1 <= q2)%Q -> (round4 q1 <= round4 q2)%Q.
Proof.
  intros H. unfold round4, Qle. simpl.
  apply Z.mul_le_mono_nonneg_r; [lia|].
  apply py_round_monotone. lra.
Qed.

Lemma round4_Qeq (q1 q2 : Q) :
  (round4 q1 == round4 q2)%Q -> round4 q1 = round4 q2.
Proof.
  unfold round4, Qeq. simpl. intros H. f_equal. lia.
Qed.

(** ** More on index lists *)

Lemma enumerate_filter_sorted {A : Type} (P : A -> bool) (l : list A) :
  StronglySorted lt (map fst (filter (fun p => P (snd p)) (enumerate l))).
Proof.
  unfold enumerate. generalize 0 as k.
  induction l as [|x l IH]; intros k; simpl; [constructor|].
  assert (Hge : forall j,
             In j (map fst (filter (fun p => P (snd p))
                                   (combine (seq (S k) (length l)) l))) ->
             k < j).
  { intros j Hj. apply in_map_iff in Hj. destruct Hj as ([j' a] & <- & Hj).
    apply filter_In in Hj. destruct Hj as [Hj _].
    apply in_combine_l, in_seq in Hj. simpl. lia. }
  destruct (P x); simpl; [|apply IH].
  constructor; [apply IH|]. apply Forall_forall. exact Hge.
Qed.

Lemma enumerate_filter_length {A : Type} (P : A -> bool) (l : list A) :
  length (map fst (filter (fun p => P (snd p)) (enumerate l))) =
  length (filter P l).
Proof.
  rewrite length_map. unfold enumerate. generalize 0 as k.
  induction l as [|x l IH]; intros k; simpl; [reflexivity|].
  destruct (P x); simpl; rewrite IH; reflexivity.
Qed.

Lemma box_eqb_sym (a b : box) : box_eqb a b = box_eqb b a.
Proof.
  unfold box_eqb. rewrite (Z.eqb_sym (xmin a)), (Z.eqb_sym (ymin a)),
    (Z.eqb_sym (xmax a)), (Z.eqb_sym (ymax a)). reflexivity.
Qed.

Lemma exact_indices_length (obj : box) (objects : list box) :
  length (exact_indices obj objects) = count objects obj.
Proof.
  unfold exact_indices, count.
  rewrite (enumerate_filter_length (fun c => box_eqb c obj)).
  f_equal. apply filter_ext. intros c. apply box_eqb_sym.
Qed.

Lemma exact_indices_single (obj : box) (objects : list box) (i : nat) :
  nth_error objects i = Some obj -> count objects obj = 1 ->
  exact_indices obj objects = [i].
Proof.
  intros Hi Hone. apply exact_indices_In in Hi.
  rewrite <- exact_indices_length in Hone.
  destruct (exact_indices obj objects) as [|j [|? ?]]; try discriminate.
  destruct Hi as [->|[]]. reflexivity.
Qed.

Lemma NoDup_count (objects : list box) (obj : box) :
  NoDup objects -> In obj objects -> count objects obj = 1.
Proof.
  unfold count. induction 1 as [|x l Hx Hnd IH]; intros Hin; [destruct Hin|].
  simpl. destruct (box_eqb obj x) eqn:E.
  - apply box_eqb_eq in E. subst x. simpl. f_equal.
    destruct (filter (box_eqb obj) l) as [|y f] eqn:Ef; [reflexivity|].
    exfalso. assert (Hy : In y (filter (box_eqb obj) l))
      by (rewrite Ef; left; reflexivity).
    apply filter_In in Hy. destruct Hy as [Hy Ey].
    apply box_eqb_eq in Ey. subst y. contradiction.
  - apply IH. destruct Hin as [->|Hin]; [|assumption].
    rewrite box_eqb_refl in E. discriminate.
Qed.

(** In a strictly increasing list, what precedes an element is smaller and
    what follows it is larger. *)
Lemma sorted_split (pre post : list nat) (w : nat) :
  StronglySorted lt (pre ++ w :: post) ->
  Forall (fun g => g < w) pre /\ Forall (fun g => w < g) post.
Proof.
  induction pre as [|x pre IH]; simpl; intros H.
  - inversion H; subst. split; [constructor|assumption].
  - inversion H as [|? ? Hs Hx]; subst.
    destruct (IH Hs) as [Hpre Hpost]. split; [|assumption].
    constructor; [|assumption].
    rewrite Forall_forall in Hx. apply Hx.
    apply in_or_app. right. left. reflexivity.
Qed.

Lemma first_max_unique (f : nat -> Q) (idxs : list nat) (w w' : nat) :
  first_max f idxs w -> first_max f idxs w' -> w = w'.
Proof.
  intros (pre & post & E & Hpre & Hpost) (pre' & post' & E' & Hpre' & Hpost').
  rewrite E in E'. apply app_eq_app in E'.
  rewrite Forall_forall in Hpre, Hpost, Hpre', Hpost'.
  destruct E' as (l & [[E1 E2]|[E1 E2]]).
  - destruct l as [|x l]; simpl in E2; [congruence|].
    injection E2 as Ex Ep.
    assert (H1 : (f w' < f w)%Q).
    { apply Hpre. rewrite E1, <- Ex.
      apply in_or_app. right. left. reflexivity. }
    assert (H2 : (f w <= f w')%Q).
    { apply Hpost'. rewrite Ep.
      apply in_or_app. right. left. reflexivity. }
    lra.
  - destruct l as [|x l]; simpl in E2; [congruence|].
    injection E2 as Ex Ep.
    assert (H1 : (f w < f w')%Q).
    { apply Hpre'. rewrite E1, <- Ex.
      apply in_or_app. right. left. reflexivity. }
    assert (H2 : (f w' <= f w)%Q).
    { apply Hpost. rewrite Ep.
      apply in_or_app. right. left. reflexivity. }
    lra.
Qed.

(** In an increasing index list, the first maximum is the maximum of
    smallest index. *)
Lemma first_max_sorted (f : nat -> Q) (idxs : list nat) (w : nat) :
  StronglySorted lt idxs -> first_max f idxs w ->
  In w idxs /\
  (forall g, In g idxs -> (f g <= f w)%Q) /\
  (forall g, In g idxs -> g < w -> (f g < f w)%Q).
Proof.
  intros Hs (pre & post & -> & Hpre & Hpost).
  destruct (sorted_split _ _ _ Hs) as [Hlt Hgt].
  rewrite Forall_forall in *.
  split; [apply in_or_app; right; left; reflexivity|]. split.
  - intros g Hg. apply in_app_or in Hg.
    destruct Hg as [Hg|[<-|Hg]]; [|apply Qle_refl|auto].
    apply Qlt_le_weak. auto.
  - intros g Hg Hgw. apply in_app_or in Hg.
    destruct Hg as [Hg|[<-|Hg]]; [auto|lia|].
    specialize (Hgt g Hg). simpl in Hgt. lia.
Qed.

(** ** Which slots the pass fills *)

Lemma near_winner_lt (objects : list box) (probs : list Q) (cnt w : nat) :
  cnt < length objects -> near_winner objects probs cnt (Some w) ->
  w < length objects.
Proof.
  intros Hc [_ H]. apply first_max_In in H.
  apply in_app_or in H. destruct H as [H|[<-|[]]]; [|assumption].
  eapply bbs_pixel_apart_lt; eassumption.
Qed.

Lemma exact_winner_first_max (objects : list box) (probs : list Q)
      (cnt w : nat) :
  cnt < length objects -> exact_winner objects probs cnt w ->
  first_max (fun i => nth i probs 0%Q)
            (exact_indices (nth cnt objects default_box) objects) w.
Proof.
  unfold exact_winner. intros Hc H.
  destruct (Nat.eqb_spec (count objects (nth cnt objects default_box)) 1)
    as [E|E]; [|assumption].
  subst w.
  rewrite (exact_indices_single _ _ cnt (nth_error_nth' _ _ Hc) E).
  exists [], []. repeat split; constructor.
Qed.

Lemma exact_winner_box (objects : list box) (probs : list Q) (cnt w : nat) :
  cnt < length objects -> exact_winner objects probs cnt w ->
  nth_error objects w = Some (nth cnt objects default_box).
Proof.
  intros Hc H. apply exact_winner_first_max in H; [|assumption].
  apply first_max_In, exact_indices_In in H. assumption.
Qed.

Lemma exact_winner_lt (objects : list box) (probs : list Q) (cnt w : nat) :
  cnt < length objects -> exact_winner objects probs cnt w ->
  w < length objects.
Proof.
  intros Hc H. apply exact_winner_box in H; [|assumption].
  apply nth_error_Some. congruence.
Qed.

Lemma near_winner_unique (objects : list box) (probs : list Q)
      (cnt : nat) (ow ow' : option nat) :
  near_winner objects probs cnt ow -> near_winner objects probs cnt ow' ->
  ow = ow'.
Proof.
  unfold near_winner.
  destruct ow as [w|], ow' as [w'|]; intros H H'.
  - f_equal. eapply first_max_unique; [apply H|apply H'].
  - destruct H as [H _]. contradiction.
  - destruct H' as [H' _]. contradiction.
  - reflexivity.
Qed.

Lemma exact_winner_unique (objects : list box) (probs : list Q)
      (cnt w w' : nat) :
  exact_winner objects probs cnt w -> exact_winner objects probs cnt w' ->
  w = w'.
Proof.
  unfold exact_winner.
  destruct (count objects (nth cnt objects default_box) =? 1).
  - congruence.
  - apply first_max_unique.
Qed.

Lemma filled_set_nth (s : slots) (w j : nat) (d : detection) :
  w < length s ->
  (filled (set_nth s w (Some d)) j <-> filled s j \/ w = j).
Proof.
  intros Hw. unfold filled. destruct (Nat.eq_dec w j) as [->|Hne].
  - rewrite nth_error_set_nth_eq by assumption. split; eauto.
  - rewrite nth_error_set_nth_ne by assumption. split; [auto|].
    intros [H|H]; [assumption|contradiction].
Qed.

Section Filled.

Variable objects : list box.
Variable labels : list label.
Variable probs : list Q.

Hypothesis Hlabels : length objects = length labels.
Hypothesis Hprobs : length labels = length probs.

Let N := length objects.
Let items := combine objects (combine labels probs).

Lemma loop_filled (k : nat) : forall (cnt : nat) (s : slots),
  cnt + k = N -> slots_ok objects labels probs s ->
  exists s',
    loop objects labels probs cnt (skipn cnt items) s = (s', Ok tt) /\
    slots_ok objects labels probs s' /\
    (forall j, filled s' j <->
               filled s j \/
               exists i, cnt <= i < N /\
                         (near_winner objects probs i (Some j) \/
                          exact_winner objects probs i j)).
Proof.
  induction k as [|k IH]; intros cnt s Hk Hok.
  - rewrite skipn_all2
      by (unfold items; rewrite (items_length objects labels probs); lia).
    exists s. simpl. unfold ret. split; [reflexivity|].
    split; [assumption|]. intros j. split; [auto|].
    intros [H|(i & Hi & _)]; [assumption|lia].
  - assert (Hc : cnt < N) by lia.
    unfold items.
    rewrite (skipn_nth_cons _ cnt (default_box, (ClassId 0, 0%Q)))
      by (rewrite (items_length objects labels probs); assumption).
    rewrite (items_nth objects labels probs Hlabels Hprobs). simpl loop.
    destruct (iteration_spec objects labels probs Hlabels Hprobs cnt Hc)
      as (ow & w & Hnear & Hexact & Hiter).
    unfold bind. rewrite (Hiter s (proj1 Hok)).
    set (s0 := write_slot objects labels probs ow s).
    set (s1 := write_slot objects labels probs (Some w) s0).
    assert (Hok0 : slots_ok objects labels probs s0)
      by (apply write_slot_ok; assumption).
    assert (Hok1 : slots_ok objects labels probs s1)
      by (apply write_slot_ok; assumption).
    assert (Hf0 : forall j, filled s0 j <-> filled s j \/ ow = Some j).
    { intros j. unfold s0. destruct ow as [v|]; simpl.
      - rewrite filled_set_nth.
        + split; (intros [H|H]; [left; assumption|right; congruence]).
        + rewrite (proj1 Hok). eapply near_winner_lt; eassumption.
      - split; [auto|]. intros [H|H]; [assumption|discriminate]. }
    assert (Hf1 : forall j, filled s1 j <-> filled s0 j \/ w = j).
    { intros j. unfold s1. simpl. apply filled_set_nth.
      rewrite (proj1 Hok0). eapply exact_winner_lt; eassumption. }
    destruct (IH (S cnt) s1 ltac:(lia) Hok1) as (s' & Hloop & Hok' & Hfill).
    exists s'. split; [exact Hloop|]. split; [assumption|].
    intros j. rewrite Hfill, Hf1, Hf0. split.
    + intros [[[H|H]|H]|(i & Hi & H)].
      * left. assumption.
      * right. exists cnt. split; [lia|]. left. subst ow. assumption.
      * right. exists cnt. split; [lia|]. right. subst w. assumption.
      * right. exists i. split; [lia|assumption].
    + intros [H|(i & Hi & H)]; [auto|].
      destruct (Nat.eq_dec i cnt) as [->|Hne].
      * left. destruct H as [H|H].
        -- left. right. eapply near_winner_unique; eassumption.
        -- right. eapply exact_winner_unique; eassumption.
      * right. exists i. split; [lia|assumption].
Qed.

End Filled.

(** On aligned input the pass ends with exactly the chosen slots filled,
    each with the record of its own index. *)
Lemma postprocess_filled (objects : list box) (labels : list label)
      (probs : list Q) :
  length objects = length labels -> length labels = length probs ->
  exists s,
    postprocess objects labels probs = (s, Ok (sorted_desc (compact s))) /\
    slots_ok objects labels probs s /\
    (forall j, filled s j <-> chosen objects probs j).
Proof.
  intros Hl Hp.
  destruct (loop_filled objects labels probs Hl Hp (length objects) 0
              (repeat None (length objects)) eq_refl
              (slots_ok_empty objects labels probs))
    as (s & Hloop & Hok & Hfill).
  simpl skipn in Hloop.
  exists s. split; [|split; [assumption|]].
  - unfold postprocess.
    rewrite Hl, Hp, !Nat.eqb_refl. simpl py_assert. cbv iota.
    rewrite <- Hp, <- Hl. rewrite Hloop. reflexivity.
  - intros j. rewrite Hfill. unfold chosen. split.
    + intros [(d & H)|(i & Hi & H)].
      * apply nth_error_In, repeat_spec in H. discriminate.
      * exists i. split; [lia|assumption].
    + intros (i & Hi & H). right. exists i. split; [lia|assumption].
Qed.

(** ** More on compaction and on the sort *)

Lemma filledb_filled (s : slots) (j : nat) : filledb s j = true <-> filled s j.
Proof.
  unfold filledb, filled. destruct (nth_error s j) as [[d|]|]; split;
    try discriminate; eauto; intros (d' & H); discriminate.
Qed.

Lemma compact_In_iff (s : slots) (d : detection) :
  In d (compact s) <-> exists j, nth_error s j = Some (Some d).
Proof.
  split; [|intros (j & H); eapply compact_In; eassumption].
  induction s as [|[e|] s IH]; simpl; [tauto| |].
  - intros [->|H]; [exists 0; reflexivity|].
    destruct (IH H) as (j & Hj). exists (S j). exact Hj.
  - intros H. destruct (IH H) as (j & Hj). exists (S j). exact Hj.
Qed.

(** The compacted list, as the records of the filled slots in slot order. *)
Lemma compact_filter (f : nat -> detection) (s : slots) : forall k,
  (forall j d, nth_error s j = Some (Some d) -> d = f (k + j)) ->
  compact s =
  map f (filter (fun i => filledb s (i - k)) (seq k (length s))).
Proof.
  induction s as [|o s IH]; intros k H; [reflexivity|].
  assert (Htl : filter (fun i => filledb (o :: s) (i - k))
                       (seq (S k) (length s)) =
                filter (fun i => filledb s (i - S k)) (seq (S k) (length s))).
  { apply filter_ext_in. intros i Hi. apply in_seq in Hi.
    replace (i - k) with (S (i - S k)) by lia. reflexivity. }
  assert (IH' : compact s =
                map f (filter (fun i => filledb s (i - S k))
                              (seq (S k) (length s)))).
  { apply IH. intros j d Hj. replace (S k + j) with (k + S j) by lia.
    apply H. exact Hj. }
  simpl length. simpl seq. simpl filter. rewrite Nat.sub_diag.
  destruct o as [d|]; simpl.
  - rewrite Htl, <- IH'. f_equal.
    rewrite (H 0 d eq_refl). f_equal. lia.
  - rewrite Htl. exact IH'.
Qed.

Lemma insert_desc_box_and_prob (d1 d2 : detection) (l1 l2 : list detection) :
  box_and_prob d1 = box_and_prob d2 ->
  map box_and_prob l1 = map box_and_prob l2 ->
  map box_and_prob (insert_desc d1 l1) = map box_and_prob (insert_desc d2 l2).
Proof.
  intros Hd. revert l2.
  assert (Dp : prob d1 = prob d2)
    by (unfold box_and_prob in Hd; congruence).
  induction l1 as [|e1 l1 IH]; intros [|e2 l2] Hl;
    try discriminate Hl; cbn [insert_desc map].
  - rewrite Hd. reflexivity.
  - cbn [map] in Hl.
    assert (He : box_and_prob e1 = box_and_prob e2) by congruence.
    assert (Ht : map box_and_prob l1 = map box_and_prob l2) by congruence.
    assert (Ep : prob e1 = prob e2)
      by (unfold box_and_prob in He; congruence).
    rewrite Ep, Dp.
    destruct (Qle_bool (prob e2) (prob d2)); cbn [map].
    + rewrite Hd, He, Ht. reflexivity.
    + rewrite He, (IH l2 Ht). reflexivity.
Qed.

Lemma sorted_desc_box_and_prob (l1 l2 : list detection) :
  map box_and_prob l1 = map box_and_prob l2 ->
  map box_and_prob (sorted_desc l1) = map box_and_prob (sorted_desc l2).
Proof.
  revert l2. induction l1 as [|d1 l1 IH]; intros [|d2 l2] H;
    try discriminate H; [reflexivity|].
  cbn [map] in H. cbn [sorted_desc fold_right].
  apply insert_desc_box_and_prob; [congruence|].
  apply IH. congruence.
Qed.

Lemma prob_ge_trans : Relations_1.Transitive prob_ge.
Proof.
  intros a b c Hab Hbc. unfold prob_ge in *.
  apply Qle_trans with (prob b); assumption.
Qed.

(** The head of the sorted list carries the largest probability. *)
Lemma sorted_desc_head (l : list detection) (d e : detection)
      (rest : list detection) :
  sorted_desc l = d :: rest -> In e l -> (prob e <= prob d)%Q.
Proof.
  intros E He.
  pose proof (sorted_desc_sorted l) as Hs.
  apply (Sorted_StronglySorted prob_ge_trans) in Hs.
  assert (Hin : In e (sorted_desc l))
    by (apply (Permutation_in _ (Permutation_sym (sorted_desc_perm l)));
        assumption).
  rewrite E in Hs, Hin. inversion Hs as [|? ? _ Hall]; subst.
  destruct Hin as [->|Hin]; [apply Qle_refl|].
  rewrite Forall_forall in Hall. apply (Hall e Hin).
Qed.

(** ** Properties of [bbs_pixel_apart] *)

(** X1.  Two boxes are one pixel apart exactly when no coordinate differs by
    more than one, some coordinate is equal and some coordinate differs by
    exactly one.  (So boxes that differ by one in all four coordinates, or by
    two in any coordinate, are not grouped.) *)
Theorem X1_pixel_apart_by_coordinates (a b : box) :
  pixel_apart a b = true <->
  ((Z.abs (xmin a - xmin b) <= 1 /\ Z.abs (ymin a - ymin b) <= 1 /\
    Z.abs (xmax a - xmax b) <= 1 /\ Z.abs (ymax a - ymax b) <= 1) /\
   (xmin a = xmin b \/ ymin a = ymin b \/
    xmax a = xmax b \/ ymax a = ymax b) /\
   (Z.abs (xmin a - xmin b) = 1 \/ Z.abs (ymin a - ymin b) = 1 \/
    Z.abs (xmax a - xmax b) = 1 \/ Z.abs (ymax a - ymax b) = 1))%Z.
Proof.
  rewrite pixel_apart_01. unfold fabs_subtract, coords. simpl.
  split.
  - intros H.
    pose proof (proj1 (H _) (or_introl eq_refl)) as H0.
    pose proof (proj1 (H _) (or_intror (or_introl eq_refl))) as H1.
    pose proof (proj1 (H _) (or_intror (or_intror (or_introl eq_refl)))) as H2.
    pose proof (proj1 (H _)
                  (or_intror (or_intror (or_intror (or_introl eq_refl)))))
      as H3.
    pose proof (proj2 (H 0%Z) (or_introl eq_refl)) as Z0.
    pose proof (proj2 (H 1%Z) (or_intror eq_refl)) as Z1.
    lia.
  - intros (Hle & Hz & Ho) x. split; [lia|].
    intros [->| ->]; lia.
Qed.

(** X2.  [bbs_pixel_apart obj objects] lists, in increasing order and hence
    without repetition, exactly the indices whose box is one pixel apart
    from [obj]; an index whose box equals [obj] is never listed. *)
Theorem X2_bbs_pixel_apart_lists_the_near_duplicates
        (obj : box) (objects : list box) :
  StronglySorted lt (bbs_pixel_apart obj objects) /\
  (forall j, In j (bbs_pixel_apart obj objects) <->
             exists c, nth_error objects j = Some c /\
                       pixel_apart c obj = true) /\
  (forall j, nth_error objects j = Some obj ->
             ~ In j (bbs_pixel_apart obj objects)).
Proof.
  split; [|split].
  - apply (enumerate_filter_sorted (fun c => pixel_apart c obj)).
  - apply bbs_pixel_apart_In.
  - intros j Hj Hin. apply bbs_pixel_apart_In in Hin.
    destruct Hin as (c & Hc & H).
    assert (c = obj) by congruence. subst c.
    rewrite pixel_apart_irrefl in H. discriminate.
Qed.

(** ** Properties of the whole post-processing *)

(** X3.  On aligned input the returned records are exactly the records of
    the chosen indices: [d] is returned iff [d] is the record of an index
    [j] that some iteration selects, either as the first maximum of its
    near-duplicate group or as the first maximum among the exact copies of
    its box (the index itself when its box occurs once). *)
Theorem X3_output_is_the_records_of_the_chosen_indices
        (objects : list box) (labels : list label) (probs : list Q) :
  length objects = length labels -> length labels = length probs ->
  exists s out,
    postprocess objects labels probs = (s, Ok out) /\
    forall d, In d out <->
              exists j, chosen objects probs j /\
                        d = record_of objects labels probs j.
Proof.
  intros Hl Hp.
  destruct (postprocess_filled objects labels probs Hl Hp)
    as (s & E & [Hlen Hrec] & Hfill).
  exists s, (sorted_desc (compact s)). split; [assumption|].
  intros d. split.
  - intros Hd.
    apply (Permutation_in _ (sorted_desc_perm (compact s))) in Hd.
    apply compact_In_iff in Hd. destruct Hd as (j & Hj).
    exists j. split; [apply Hfill; exists d; assumption|].
    apply Hrec. assumption.
  - intros (j & Hj & ->). apply Hfill in Hj. destruct Hj as (d & Hd).
    apply (Permutation_in _ (Permutation_sym (sorted_desc_perm (compact s)))).
    rewrite <- (Hrec j d Hd). eapply compact_In. eassumption.
Qed.

Lemma X3_output_is_the_records_of_the_chosen_indices_witness :
  exists s out,
    postprocess [box_10_11; box_10_10; box_10_10]
                [ClassId 0; ClassId 1; ClassId 2]
                [1 # 10; 5 # 10; 9 # 10]%Q = (s, Ok out) /\
    forall d, In d out <->
              exists j, chosen [box_10_11; box_10_10; box_10_10]
                               [1 # 10; 5 # 10; 9 # 10]%Q j /\
                        d = record_of [box_10_11; box_10_10; box_10_10]
                                      [ClassId 0; ClassId 1; ClassId 2]
                                      [1 # 10; 5 # 10; 9 # 10]%Q j.
Proof.
  apply (X3_output_is_the_records_of_the_chosen_indices
           [box_10_11; box_10_10; box_10_10]
           [ClassId 0; ClassId 1; ClassId 2]
           [1 # 10; 5 # 10; 9 # 10]%Q); reflexivity.
Defined.

(** The exact-count rules always select an index at iteration [i]. *)
Lemma exact_winner_exists (objects : list box) (labels : list label)
      (probs : list Q) (i : nat) :
  length objects = length labels -> length labels = length probs ->
  i < length objects -> exists w, exact_winner objects probs i w.
Proof.
  intros Hl Hp Hi.
  destruct (iteration_spec objects labels probs Hl Hp i Hi)
    as (ow & w & _ & Hw & _).
  exists w. assumption.
Qed.

(** X4.  No box is lost: on aligned input, for every box of the input the
    output holds the record of its best exact copy, that is of the index [w]
    which carries the same box, has the highest probability among the
    indices carrying that box and is the smallest such index. *)
Theorem X4_best_exact_copy_is_returned
        (objects : list box) (labels : list label) (probs : list Q)
        (i : nat) (obj : box) :
  length objects = length labels -> length labels = length probs ->
  nth_error objects i = Some obj ->
  exists s out w,
    postprocess objects labels probs = (s, Ok out) /\
    nth_error objects w = Some obj /\
    (forall g, nth_error objects g = Some obj ->
               (nth g probs 0 <= nth w probs 0)%Q) /\
    (forall g, nth_error objects g = Some obj -> g < w ->
               (nth g probs 0 < nth w probs 0)%Q) /\
    In (mkDetection obj (nth w labels (ClassId 0))
                    (round4 (nth w probs 0%Q))) out.
Proof.
  intros Hl Hp Hi.
  assert (Hlt : i < length objects) by (apply nth_error_Some; congruence).
  destruct (postprocess_filled objects labels probs Hl Hp)
    as (s & E & [Hlen Hrec] & Hfill).
  destruct (exact_winner_exists objects labels probs i Hl Hp Hlt)
    as (w & Hw).
  pose proof (exact_winner_first_max objects probs i w Hlt Hw) as Hmax.
  pose proof (exact_winner_box objects probs i w Hlt Hw) as Hbox.
  rewrite (nth_error_nth _ _ default_box Hi) in Hmax, Hbox.
  apply first_max_sorted in Hmax.
  2:{ apply (enumerate_filter_sorted (fun c => box_eqb c obj)). }
  destruct Hmax as (_ & Hle & Hlt').
  exists s, (sorted_desc (compact s)), w.
  split; [assumption|]. split; [assumption|].
  split; [intros g Hg; apply Hle, exact_indices_In; assumption|].
  split; [intros g Hg; apply Hlt', exact_indices_In; assumption|].
  assert (Hf : filled s w).
  { apply Hfill. exists i. split; [assumption|right; assumption]. }
  destruct Hf as (d & Hd).
  apply (Permutation_in _ (Permutation_sym (sorted_desc_perm (compact s)))).
  pose proof (Hrec w d Hd) as Ed. unfold record_of in Ed.
  rewrite (nth_error_nth _ _ default_box Hbox) in Ed. rewrite <- Ed.
  eapply compact_In. eassumption.
Qed.

Lemma X4_best_exact_copy_is_returned_witness :
  exists s out w,
    postprocess [box_10_10; box_10_11; box_10_10]
                [ClassId 0; ClassId 1; ClassId 2]
                [9 # 10; 5 # 10; 9 # 10]%Q = (s, Ok out) /\
    nth_error [box_10_10; box_10_11; box_10_10] w = Some box_10_10 /\
    (forall g, nth_error [box_10_10; box_10_11; box_10_10] g = Some box_10_10 ->
               (nth g [9 # 10; 5 # 10; 9 # 10] 0 <=
                nth w [9 # 10; 5 # 10; 9 # 10] 0)%Q) /\
    (forall g, nth_error [box_10_10; box_10_11; box_10_10] g = Some box_10_10 ->
               g < w ->
               (nth g [9 # 10; 5 # 10; 9 # 10] 0 <
                nth w [9 # 10; 5 # 10; 9 # 10] 0)%Q) /\
    In (mkDetection box_10_10 (nth w [ClassId 0; ClassId 1; ClassId 2] (ClassId 0))
                    (round4 (nth w [9 # 10; 5 # 10; 9 # 10]%Q 0%Q))) out.
Proof.
  apply (X4_best_exact_copy_is_returned
           [box_10_10; box_10_11; box_10_10]
           [ClassId 0; ClassId 1; ClassId 2]
           [9 # 10; 5 # 10; 9 # 10]%Q 2 box_10_10); reflexivity.
Defined.

(** X5.  On aligned, non-empty input the output is not empty, the
    probability of its first record is the largest input probability rounded
    to 4 decimals, and the record of an index that carries the largest
    input probability is in the output.  (The first record need not be that
    one: probabilities that round alike keep their slot order.) *)
Theorem X5_first_record_has_the_largest_probability
        (objects : list box) (labels : list label) (probs : list Q) :
  length objects = length labels -> length labels = length probs ->
  objects <> [] ->
  exists s d rest m w,
    postprocess objects labels probs = (s, Ok (d :: rest)) /\
    py_max probs = Ok m /\
    prob d = round4 m /\
    (nth w probs 0 == m)%Q /\
    In (record_of objects labels probs w) (d :: rest).
Proof.
  intros Hl Hp Hne.
  assert (Hpne : probs <> []).
  { destruct objects; [congruence|]. destruct probs; [|discriminate].
    simpl in *. lia. }
  destruct (py_max_spec probs Hpne) as (m & Hm & Hin & Hall).
  apply In_nth_error in Hin. destruct Hin as (i0 & Hi0).
  assert (Hlt : i0 < length objects).
  { rewrite Hl, Hp. apply nth_error_Some. congruence. }
  destruct (postprocess_filled objects labels probs Hl Hp)
    as (s & E & [Hlen Hrec] & Hfill).
  destruct (exact_winner_exists objects labels probs i0 Hl Hp Hlt)
    as (w & Hw).
  pose proof (exact_winner_first_max objects probs i0 w Hlt Hw) as Hmax.
  pose proof (exact_winner_lt objects probs i0 w Hlt Hw) as Hwlt.
  apply first_max_sorted in Hmax.
  2:{ apply (enumerate_filter_sorted
               (fun c => box_eqb c (nth i0 objects default_box))). }
  destruct Hmax as (_ & Hle & _).
  specialize (Hle i0 (proj2 (exact_indices_In _ _ _)
                            (nth_error_nth' _ _ Hlt))).
  simpl in Hle. rewrite (nth_error_nth _ _ 0%Q Hi0) in Hle.
  rewrite Forall_forall in Hall.
  assert (Hbound : forall j, j < length objects ->
                             (nth j probs 0 <= m)%Q).
  { intros j Hj. apply Hall. apply nth_In. rewrite <- Hp, <- Hl. exact Hj. }
  assert (Hwm : (nth w probs 0 == m)%Q)
    by (apply Qle_antisym; [apply Hbound; assumption|assumption]).
  assert (Hf : filled s w).
  { apply Hfill. exists i0. split; [assumption|right; assumption]. }
  destruct Hf as (dw & Hdw).
  pose proof (Hrec w dw Hdw) as Edw.
  assert (Hinw : In dw (compact s)) by (eapply compact_In; eassumption).
  assert (Hsw : In dw (sorted_desc (compact s))).
  { apply (Permutation_in _ (Permutation_sym (sorted_desc_perm (compact s)))).
    assumption. }
  destruct (sorted_desc (compact s)) as [|d rest] eqn:Es; [destruct Hsw|].
  exists s, d, rest, m, w. split; [assumption|]. split; [assumption|].
  assert (Hd : In d (compact s)).
  { apply (Permutation_in _ (sorted_desc_perm (compact s))).
    rewrite Es. left. reflexivity. }
  apply compact_In_iff in Hd. destruct Hd as (j & Hj).
  pose proof (Hrec j d Hj) as Ed.
  assert (Hjlt : j < length objects).
  { rewrite <- Hlen. apply nth_error_Some. congruence. }
  assert (Hup : (prob d <= round4 m)%Q).
  { rewrite Ed. simpl. apply round4_monotone, Hbound. assumption. }
  assert (Hlow : (round4 m <= prob d)%Q).
  { rewrite <- (round4_compat _ _ Hwm).
    pose proof (sorted_desc_head _ _ dw _ Es Hinw) as H.
    rewrite Edw in H. exact H. }
  split; [|split; [assumption|rewrite <- Edw; assumption]].
  rewrite Ed. simpl. apply round4_Qeq.
  apply Qle_antisym; [rewrite Ed in Hup|rewrite Ed in Hlow]; assumption.
Qed.

Lemma X5_first_record_has_the_largest_probability_witness :
  exists s d rest m w,
    postprocess [box_10_10; box_10_11] [ClassId 1; ClassId 2]
                [4 # 10; 95 # 100]%Q = (s, Ok (d :: rest)) /\
    py_max [4 # 10; 95 # 100]%Q = Ok m /\
    prob d = round4 m /\
    (nth w [4 # 10; 95 # 100] 0 == m)%Q /\
    In (record_of [box_10_10; box_10_11] [ClassId 1; ClassId 2]
                  [4 # 10; 95 # 100]%Q w) (d :: rest).
Proof.
  apply (X5_first_record_has_the_largest_probability
           [box_10_10; box_10_11] [ClassId 1; ClassId 2]
           [4 # 10; 95 # 100]%Q); [reflexivity|reflexivity|discriminate].
Defined.

(** X6.  When the boxes are pairwise distinct nothing is suppressed, whatever
    their distances: on aligned input without a repeated box the output
    holds the records of all N indices. *)
Theorem X6_distinct_boxes_are_all_returned
        (objects : list box) (labels : list label) (probs : list Q) :
  length objects = length labels -> length labels = length probs ->
  NoDup objects ->
  exists s out,
    postprocess objects labels probs = (s, Ok out) /\
    Permutation out (map (record_of objects labels probs)
                         (seq 0 (length objects))) /\
    length out = length objects.
Proof.
  intros Hl Hp Hnd.
  destruct (postprocess_aligned objects labels probs Hl Hp)
    as (s & E & [Hlen Hrec] & Huniq).
  assert (Hall : forall j, j < length objects -> filledb s j = true).
  { intros j Hj. apply filledb_filled.
    exists (record_of objects labels probs j). apply Huniq; [assumption|].
    apply NoDup_count; [assumption|]. apply nth_In. assumption. }
  assert (Ec : compact s =
               map (record_of objects labels probs) (seq 0 (length objects))).
  { rewrite (compact_filter (record_of objects labels probs) s 0 Hrec).
    rewrite Hlen. f_equal.
    rewrite <- (filter_ext_in (fun _ => true)).
    - induction (seq 0 (length objects)); simpl; congruence.
    - intros j Hj. apply in_seq in Hj. rewrite Nat.sub_0_r.
      symmetry. apply Hall. lia. }
  exists s, (sorted_desc (compact s)). split; [assumption|].
  rewrite <- Ec. split; [apply sorted_desc_perm|].
  rewrite (Permutation_length (sorted_desc_perm (compact s))).
  rewrite Ec, length_map, length_seq. reflexivity.
Qed.

Lemma X6_distinct_boxes_are_all_returned_witness :
  exists s out,
    postprocess [box_10_10; box_10_11] [ClassId 1; ClassId 2]
                [4 # 10; 95 # 100]%Q = (s, Ok out) /\
    Permutation out (map (record_of [box_10_10; box_10_11]
                                    [ClassId 1; ClassId 2]
                                    [4 # 10; 95 # 100]%Q)
                         (seq 0 2)) /\
    length out = 2.
Proof.
  apply (X6_distinct_boxes_are_all_returned
           [box_10_10; box_10_11] [ClassId 1; ClassId 2]
           [4 # 10; 95 # 100]%Q); [reflexivity|reflexivity|].
  constructor; [|constructor; [intros []|constructor]].
  intros [H|[]]. discriminate H.
Defined.

(** X7.  The suppression never looks at the labels: for two label lists
    over the same boxes and probabilities, the outputs hold the same boxes
    with the same probabilities, in the same order. *)
Theorem X7_labels_do_not_influence_boxes_and_probabilities
        (objects : list box) (labels1 labels2 : list label) (probs : list Q) :
  length objects = length labels1 -> length objects = length labels2 ->
  length objects = length probs ->
  exists s1 out1 s2 out2,
    postprocess objects labels1 probs = (s1, Ok out1) /\
    postprocess objects labels2 probs = (s2, Ok out2) /\
    map box_and_prob out1 = map box_and_prob out2.
Proof.
  intros H1 H2 Hp.
  destruct (postprocess_filled objects labels1 probs H1 ltac:(congruence))
    as (s1 & E1 & [Hlen1 Hrec1] & Hfill1).
  destruct (postprocess_filled objects labels2 probs H2 ltac:(congruence))
    as (s2 & E2 & [Hlen2 Hrec2] & Hfill2).
  exists s1, (sorted_desc (compact s1)), s2, (sorted_desc (compact s2)).
  split; [assumption|]. split; [assumption|].
  apply sorted_desc_box_and_prob.
  rewrite (compact_filter (record_of objects labels1 probs) s1 0 Hrec1).
  rewrite (compact_filter (record_of objects labels2 probs) s2 0 Hrec2).
  rewrite Hlen1, Hlen2, !map_map.
  rewrite (filter_ext (fun i => filledb s1 (i - 0)) (fun i => filledb s2 (i - 0))).
  - apply map_ext. intros j. reflexivity.
  - intros j.
    destruct (filledb s1 (j - 0)) eqn:F1, (filledb s2 (j - 0)) eqn:F2;
      try reflexivity.
    + apply filledb_filled, Hfill1, Hfill2, filledb_filled in F1. congruence.
    + apply filledb_filled, Hfill2, Hfill1, filledb_filled in F2. congruence.
Qed.

Lemma X7_labels_do_not_influence_boxes_and_probabilities_witness :
  exists s1 out1 s2 out2,
    postprocess [box_10_11; box_10_10; box_10_10]
                [ClassId 0; ClassId 1; ClassId 2]
                [1 # 10; 5 # 10; 9 # 10]%Q = (s1, Ok out1) /\
    postprocess [box_10_11; box_10_10; box_10_10]
                [ClassId 7; ClassId 7; ClassId 7]
                [1 # 10; 5 # 10; 9 # 10]%Q = (s2, Ok out2) /\
    map box_and_prob out1 = map box_and_prob out2.
Proof.
  apply (X7_labels_do_not_influence_boxes_and_probabilities
           [box_10_11; box_10_10; box_10_10]
           [ClassId 0; ClassId 1; ClassId 2]
           [ClassId 7; ClassId 7; ClassId 7]
           [1 # 10; 5 # 10; 9 # 10]%Q); reflexivity.
Defined.

(** X8.  Returned probabilities are probabilities with 4 decimals: if every
    input probability lies in [0, 1], every returned record has a
    probability in [0, 1] that is a whole number of ten-thousandths. *)
Theorem X8_output_probabilities_stay_in_range
        (objects : list box) (labels : list label) (probs : list Q) :
  length objects = length labels -> length labels = length probs ->
  Forall (fun p => (0 <= p <= 1)%Q) probs ->
  exists s out,
    postprocess objects labels probs = (s, Ok out) /\
    Forall (fun d => (0 <= prob d <= 1)%Q /\ Qden (prob d) = 10000%positive)
           out.
Proof.
  intros Hl Hp Hrange.
  destruct (postprocess_aligned objects labels probs Hl Hp)
    as (s & E & [Hlen Hrec] & _).
  exists s, (sorted_desc (compact s)). split; [assumption|].
  apply Forall_forall. intros d Hd.
  apply (Permutation_in _ (sorted_desc_perm (compact s))) in Hd.
  apply compact_In_iff in Hd. destruct Hd as (j & Hj).
  assert (Hjlt : j < length probs).
  { rewrite <- Hp, <- Hl, <- Hlen. apply nth_error_Some. congruence. }
  rewrite (Hrec j d Hj). simpl.
  rewrite Forall_forall in Hrange.
  destruct (Hrange (nth j probs 0%Q) (nth_In _ _ Hjlt)) as [H0 H1].
  split; [|reflexivity]. split.
  - apply Qle_trans with (round4 0); [discriminate|].
    apply round4_monotone. assumption.
  - apply Qle_trans with (round4 1); [|discriminate].
    apply round4_monotone. assumption.
Qed.

Lemma X8_output_probabilities_stay_in_range_witness :
  exists s out,
    postprocess [box_10_10; box_10_11] [ClassId 1; ClassId 2]
                [4 # 10; 95 # 100]%Q = (s, Ok out) /\
    Forall (fun d => (0 <= prob d <= 1)%Q /\ Qden (prob d) = 10000%positive)
           out.
Proof.
  apply (X8_output_probabilities_stay_in_range
           [box_10_10; box_10_11] [ClassId 1; ClassId 2]
           [4 # 10; 95 # 100]%Q); [reflexivity|reflexivity|].
  repeat constructor; discriminate.
Defined.

(** ** Comprehensions that may raise *)

Lemma comprehension_nth {A B : Type} (f : A -> result B) (l : list A) :
  forall l', comprehension f l = Ok l' ->
  length l' = length l /\
  forall k a, nth_error l k = Some a ->
              exists b, f a = Ok b /\ nth_error l' k = Some b.
Proof.
  induction l as [|x l IH]; simpl; intros l' H.
  - inversion H; subst. split; [reflexivity|].
    intros [|k] a Ha; discriminate.
  - destruct (f x) as [b|e] eqn:Ex; simpl in H; [|discriminate].
    destruct (comprehension f l) as [bs|e]; simpl in H; [|discriminate].
    inversion H; subst. destruct (IH bs eq_refl) as [Hlen Hnth].
    split; [simpl; congruence|].
    intros [|k] a Ha; simpl in *.
    + inversion Ha; subst. eauto.
    + apply Hnth. assumption.
Qed.

Lemma comprehension_Ok_iff {A B : Type} (f : A -> result B) (l : list A) :
  (exists l', comprehension f l = Ok l') <->
  Forall (fun a => exists b, f a = Ok b) l.
Proof.
  split.
  - intros (l' & H). apply Forall_forall. intros a Ha.
    apply In_nth_error in Ha. destruct Ha as (k & Hk).
    destruct (comprehension_nth f l l' H) as [_ Hnth].
    destruct (Hnth k a Hk) as (b & Hb & _). eauto.
  - induction 1 as [|a l (b & Hb) _ (l' & IH)]; simpl; [eauto|].
    rewrite Hb, IH. simpl. eauto.
Qed.

Lemma comprehension_raises {A B : Type} (f : A -> result B) (l : list A)
      (e : exn) :
  comprehension f l = Raise e -> exists a, In a l /\ f a = Raise e.
Proof.
  induction l as [|x l IH]; simpl; [discriminate|].
  destruct (f x) as [b|e'] eqn:Ex; simpl.
  - destruct (comprehension f l) as [bs|e'']; simpl; [discriminate|].
    intros H. inversion H; subst.
    destruct (IH eq_refl) as (a & Ha & Hf). eauto.
  - intros H. inversion H; subst. eauto.
Qed.

(** ** Properties of the rescaling *)












(** ** Properties of the label lookup and of the whole call *)

Lemma getitem_Ok_iff {A : Type} (l : list A) (z : Z) :
  (exists a, getitem l z = Ok a) <->
  (- Z.of_nat (length l) <= z < Z.of_nat (length l))%Z.
Proof.
  unfold getitem, index.
  destruct (Z.leb_spec 0 z) as [H0|H0].
  - destruct (nth_error l (Z.to_nat z)) as [a|] eqn:E.
    + split; [|eauto]. intros _.
      assert (Z.to_nat z < length l) by (apply nth_error_Some; congruence).
      lia.
    + apply nth_error_None in E. split; [|lia].
      intros (a & H). discriminate.
  - destruct (Z.leb_spec (- Z.of_nat (length l)) z) as [H1|H1].
    + destruct (nth_error l (Z.to_nat (Z.of_nat (length l) + z))) as [a|] eqn:E.
      * split; [lia|eauto].
      * apply nth_error_None in E. lia.
    + split; [|lia]. intros (a & H). discriminate.
Qed.

Lemma getitem_raises {A : Type} (l : list A) (z : Z) (e : exn) :
  getitem l z = Raise e -> e = IndexError.
Proof.
  unfold getitem, index.
  destruct (0 <=? z)%Z; [destruct (nth_error l _); congruence|].
  destruct (- Z.of_nat (length l) <=? z)%Z; [|congruence].
  destruct (nth_error l _); congruence.
Qed.

Lemma resolve_labels_Ok_iff (class_labels : option (list string))
      (labels : list Z) :
  (exists ls, resolve_labels class_labels labels = Ok ls) <->
  labels_valid class_labels labels.
Proof.
  destruct class_labels as [names|]; simpl; [|split; eauto].
  rewrite comprehension_Ok_iff. split; intros H;
    (eapply Forall_impl; [|exact H]); simpl; intros z Hz.
  - apply (getitem_Ok_iff names z). destruct Hz as (b & Hb).
    destruct (getitem names z); [eauto|discriminate].
  - apply (getitem_Ok_iff names z) in Hz. destruct Hz as (a & ->).
    simpl. eauto.
Qed.

Lemma resolve_labels_raises (class_labels : option (list string))
      (labels : list Z) (e : exn) :
  resolve_labels class_labels labels = Raise e -> e = IndexError.
Proof.
  destruct class_labels as [names|]; simpl; [|discriminate].
  intros H. apply comprehension_raises in H. destruct H as (z & _ & Hz).
  destruct (getitem names z) eqn:E; simpl in Hz; [discriminate|].
  inversion Hz; subst. eapply getitem_raises. eassumption.
Qed.

Lemma resolve_labels_length (class_labels : option (list string))
      (labels : list Z) (ls : list label) :
  resolve_labels class_labels labels = Ok ls -> length ls = length labels.
Proof.
  destruct class_labels as [names|]; simpl.
  - intros H. apply (comprehension_nth _ _ _ H).
  - intros H. inversion H; subst. apply length_map.
Qed.

(** X12.  Label lookup through a class table: it succeeds exactly when every
    raw label [z] is a valid Python index of the table
    ([-len <= z < len]) and raises [IndexError] otherwise; on success the
    [k]-th label is the class name at index [z], counted from the end of
    the table when [z] is negative, and no label is added or dropped. *)
Theorem X12_resolve_labels_is_a_lookup_by_index
        (names : list string) (labels : list Z) :
  ((exists ls, resolve_labels (Some names) labels = Ok ls) <->
   labels_valid (Some names) labels) /\
  (~ labels_valid (Some names) labels ->
   resolve_labels (Some names) labels = Raise IndexError) /\
  (forall ls, resolve_labels (Some names) labels = Ok ls ->
     length ls = length labels /\
     forall k z, nth_error labels k = Some z ->
       exists name,
         nth_error ls k = Some (ClassName name) /\
         nth_error names
           (Z.to_nat (if (0 <=? z)%Z then z
                      else Z.of_nat (length names) + z)) = Some name).
Proof.
  split; [apply resolve_labels_Ok_iff|]. split.
  - intros H. destruct (resolve_labels (Some names) labels) as [ls|e] eqn:E.
    + exfalso. apply H. apply resolve_labels_Ok_iff. eauto.
    + f_equal. eapply resolve_labels_raises. eassumption.
  - intros ls H. split; [eapply resolve_labels_length; eassumption|].
    intros k z Hk. simpl in H.
    destruct (comprehension_nth _ _ _ H) as [_ Hnth].
    destruct (Hnth k z Hk) as (b & Hb & Hls).
    destruct (getitem names z) as [name|] eqn:E; simpl in Hb; [|discriminate].
    inversion Hb; subst. exists name. split; [assumption|].
    unfold getitem, index in E.
    destruct (0 <=? z)%Z.
    + destruct (nth_error names (Z.to_nat z)); congruence.
    + destruct (- Z.of_nat (length names) <=? z)%Z; [|discriminate].
      destruct (nth_error names _); congruence.
Qed.

(** X13.  [predict_image] raises [AttributeError] exactly when
    [config.dataset.dir] was empty or [None] at construction:
    [self.class_labels] is then never assigned, and line 126 reads it. *)
Theorem X13_unset_class_labels_raise_attribute_error
        (dataset_dir : option string) (classes_json : option (list string))
        (objects : list raw_box) (labels : list Z) (probs : list Q)
        (scale_factor : scale) :
  predict_image_fetched (init_class_labels dataset_dir classes_json)
                        objects labels probs scale_factor
  = FailedAttributeError <->
  dataset_dir = None \/ dataset_dir = Some EmptyString.
Proof.
  unfold init_class_labels, predict_image_fetched.
  destruct dataset_dir as [dir|]; [|split; auto].
  destruct (String.eqb_spec dir EmptyString) as [->|Hne].
  - split; auto.
  - split.
    + destruct (resolve_labels classes_json labels); [|discriminate].
      destruct (predict_image objects a probs scale_factor); discriminate.
    + intros [H|H]; congruence.
Qed.








(** * The tile layout of [assemble_mosaic] ([luminoth/utils/mosaic.py])

    Only the arithmetic of the layout is embedded: the size of the grid, the
    tile given to each image and the slice of the mosaic it is written to.
    Reading and resizing the images is left to OpenCV. *)

Module Mosaic.

(** [int(math.ceil(np.sqrt(n)))], line 34 (exact for every list length
    that fits in memory). *)
Definition ceil_sqrt (n : nat) : nat :=
  let r := Nat.sqrt n in
  if r * r =? n then r else S r.

(** [list(itertools.product(range(a), range(b)))], line 53. *)
Definition product_range (a b : nat) : list (nat * nat) :=
  list_prod (seq 0 a) (seq 0 b).

(** [x, y = indices[index]], line 65, for the image at position [k] of a
    list of [n] images. *)
Definition tile_of (n k : nat) : result (nat * nat) :=
  let x_tiles := ceil_sqrt n in
  let y_tiles := ceil_sqrt n in
  index (product_range x_tiles y_tiles) k.

(** Rows [row_start, row_stop) and columns [col_start, col_stop). *)
Record slice : Type :=
  mkSlice { row_start : nat; row_stop : nat; col_start : nat; col_stop : nat }.

(** The slice of lines 66-70 for the tile [(x, y)]. *)
Definition tile_slice (tile_size_x tile_size_y : nat) (xy : nat * nat)
  : slice :=
  let '(x, y) := xy in
  mkSlice (x * tile_size_x) (tile_size_x * (x + 1))
          (y * tile_size_y) (tile_size_y * (y + 1)).

(** The first two dimensions of the mosaic, lines 47-49. *)
Definition mosaic_shape (n tile_size_x tile_size_y : nat) : nat * nat :=
  (ceil_sqrt n * tile_size_x, ceil_sqrt n * tile_size_y).

Definition in_slice (sl : slice) (r c : nat) : Prop :=
  row_start sl <= r < row_stop sl /\ col_start sl <= c < col_stop sl.

Lemma ceil_sqrt_spec (n : nat) :
  n <= ceil_sqrt n * ceil_sqrt n /\
  (0 < n -> (ceil_sqrt n - 1) * (ceil_sqrt n - 1) < n).
Proof.
  unfold ceil_sqrt. pose proof (Nat.sqrt_spec n (Nat.le_0_l n)) as [Hlo Hhi].
  destruct (Nat.eqb_spec (Nat.sqrt n * Nat.sqrt n) n) as [E|E].
  - split; [lia|]. intros Hn.
    destruct (Nat.sqrt n) as [|r]; [simpl in E; lia|].
    replace (S r - 1) with r by lia. nia.
  - split; [lia|]. intros _.
    replace (S (Nat.sqrt n) - 1) with (Nat.sqrt n) by lia. lia.
Qed.

Lemma product_range_nth (a b : nat) : forall s k,
  k < a * b ->
  nth_error (list_prod (seq s a) (seq 0 b)) k = Some (s + k / b, k mod b).
Proof.
  induction a as [|a IH]; intros s k Hk; [lia|].
  assert (Hb : b <> 0) by (intros ->; lia).
  simpl seq. simpl list_prod.
  destruct (Nat.lt_ge_cases k b) as [Hlt|Hge].
  - rewrite nth_error_app1 by (rewrite length_map, length_seq; assumption).
    rewrite nth_error_map.
    rewrite (nth_error_nth' (seq 0 b) 0) by (rewrite length_seq; assumption).
    rewrite seq_nth by assumption. simpl.
    rewrite Nat.div_small, Nat.mod_small by assumption.
    f_equal. f_equal. lia.
  - rewrite nth_error_app2 by (rewrite length_map, length_seq; assumption).
    rewrite length_map, length_seq.
    rewrite IH by (simpl in Hk; lia).
    assert (Ek : k = (k - b) + 1 * b) by lia.
    rewrite Ek at 3 4.
    rewrite Nat.div_add, Nat.Div0.mod_add by assumption.
    f_equal. f_equal. lia.
Qed.

(** X17.  The grid is large enough and no larger than needed: with
    [t = ceil(sqrt(n))] tiles per side, [n <= t * t] and, for a non-empty
    list, [(t - 1) * (t - 1) < n]; so [indices[index]] never raises, and the
    image at position [k] gets the tile [(k // t, k % t)], row by row. *)
Theorem X17_every_image_gets_a_tile (n k : nat) :
  k < n ->
  n <= ceil_sqrt n * ceil_sqrt n /\
  (ceil_sqrt n - 1) * (ceil_sqrt n - 1) < n /\
  tile_of n k = Ok (k / ceil_sqrt n, k mod ceil_sqrt n) /\
  k / ceil_sqrt n < ceil_sqrt n /\ k mod ceil_sqrt n < ceil_sqrt n.
Proof.
  intros Hk. destruct (ceil_sqrt_spec n) as [Hle Hmin].
  assert (Ht : ceil_sqrt n <> 0) by (intros E; rewrite E in Hle; lia).
  split; [assumption|]. split; [apply Hmin; lia|]. split; [|split].
  - unfold tile_of, product_range, index.
    rewrite product_range_nth by lia. reflexivity.
  - apply Nat.Div0.div_lt_upper_bound. lia.
  - apply Nat.mod_upper_bound. assumption.
Qed.

Lemma X17_every_image_gets_a_tile_witness :
  7 <= ceil_sqrt 7 * ceil_sqrt 7 /\
  (ceil_sqrt 7 - 1) * (ceil_sqrt 7 - 1) < 7 /\
  tile_of 7 5 = Ok (5 / ceil_sqrt 7, 5 mod ceil_sqrt 7) /\
  5 / ceil_sqrt 7 < ceil_sqrt 7 /\ 5 mod ceil_sqrt 7 < ceil_sqrt 7.
Proof.
  apply (X17_every_image_gets_a_tile 7 5). repeat constructor.
Defined.

(** X18.  The images do not overwrite one another and stay inside the
    mosaic: the slices written for two different positions of the list
    share no pixel, and every pixel of a slice lies within the shape of
    the mosaic. *)
Theorem X18_tiles_are_disjoint_and_inside
        (n tile_size_x tile_size_y k1 k2 : nat) (xy1 xy2 : nat * nat) :
  tile_of n k1 = Ok xy1 -> tile_of n k2 = Ok xy2 -> k1 <> k2 ->
  forall r c,
    in_slice (tile_slice tile_size_x tile_size_y xy1) r c ->
    ~ in_slice (tile_slice tile_size_x tile_size_y xy2) r c /\
    r < fst (mosaic_shape n tile_size_x tile_size_y) /\
    c < snd (mosaic_shape n tile_size_x tile_size_y).
Proof.
  intros H1 H2 Hne r c Hin.
  set (t := ceil_sqrt n) in *.
  assert (Hk : forall k xy, tile_of n k = Ok xy ->
                            k < t * t /\ xy = (k / t, k mod t)).
  { intros k xy H. unfold tile_of, product_range, index in H. fold t in H.
    destruct (nth_error (list_prod (seq 0 t) (seq 0 t)) k) eqn:E;
      [|discriminate].
    assert (Hlt : k < t * t).
    { assert (Hl : k < length (list_prod (seq 0 t) (seq 0 t)))
        by (apply nth_error_Some; congruence).
      rewrite length_prod, !length_seq in Hl. exact Hl. }
    split; [assumption|].
    rewrite product_range_nth in E by assumption. simpl in E.
    congruence. }
  destruct (Hk k1 xy1 H1) as [Hk1 ->].
  destruct (Hk k2 xy2 H2) as [Hk2 ->].
  assert (Ht : t <> 0) by (intros E; rewrite E in Hk1; lia).
  pose proof (Nat.div_mod_eq k1 t) as D1.
  pose proof (Nat.div_mod_eq k2 t) as D2.
  pose proof (Nat.mod_upper_bound k1 t Ht) as M1.
  pose proof (Nat.mod_upper_bound k2 t Ht) as M2.
  assert (Hx1 : k1 / t < t) by (apply Nat.Div0.div_lt_upper_bound; lia).
  unfold in_slice, tile_slice, mosaic_shape in *. fold t. simpl in *.
  destruct Hin as [[Hr0 Hr1] [Hc0 Hc1]].
  split; [|split].
  - intros [[Hr0' Hr1'] [Hc0' Hc1']].
    assert (k1 / t = k2 / t) by nia.
    assert (k1 mod t = k2 mod t) by nia.
    apply Hne. congruence.
  - nia.
  - nia.
Qed.

Lemma X18_tiles_are_disjoint_and_inside_witness :
  ~ in_slice (tile_slice 10 12 (2, 0)) 15 30 /\
  15 < fst (mosaic_shape 7 10 12) /\
  30 < snd (mosaic_shape 7 10 12).
Proof.
  apply (X18_tiles_are_disjoint_and_inside 7 10 12 5 6 (1, 2) (2, 0));
    [reflexivity|reflexivity|discriminate|].
  unfold in_slice. simpl. lia.
Defined.

End Mosaic.
